(** * Nested JSON event profiler: a shallow embedding of
      [scripts/profile_events_nested.py] and the properties of its
      path walk, example summarizer and statistics finalizer.

    Python values are embedded as follows.
    - [int] is [Z] (unbounded), [len] is [Z.of_nat] of a length.
    - [str] is [string]; one character of the embedding stands for one
      code point of the Python string.
    - a JSON document is the tagged union [json]; a [dict] that is walked
      in insertion order is an association list, a [dict] used as a keyed
      store ([field_stats], a [Counter], [result_keys]) is a [gmap].
    - a [float] that is only compared or produced by one true division is
      the exact rational [Q] (finite doubles are rationals and their
      comparison is the comparison of rationals).
    - mutation of the accumulator store is explicit state passing: every
      function that mutates [stats] returns the new store. *)

From Stdlib Require Import ZArith QArith Ascii DecimalString DecimalZ.
From stdpp Require Import gmap strings list fin_maps.

Local Open Scope Z_scope.

(** ** Constants of the module *)

Definition DEFAULT_MAX_EXAMPLES_PER_KEY : Z := 5.
Definition DEFAULT_MAX_STRING_EXAMPLE_LEN : Z := 200.
Definition DEFAULT_MAX_DEPTH : Z := 3.
Definition DEFAULT_MAX_ARRAY_ITEMS : Z := 5.
Definition MAX_OBJECT_KEYS_IN_SUMMARY : nat := 20.

(** ** JSON values, as [json.loads] builds them *)

(** A JSON number is a Python [int] or a [float]; the float is kept as its
    binary64 bit pattern, nothing in the profiler looks inside it. *)
Inductive number : Type :=
| Int (z : Z)
| Float (bits : Z).

#[local] Unset Elimination Schemes.
Inductive json : Type :=
| JNull
| JBool (b : bool)
| JNumber (n : number)
| JString (s : string)
| JArray (elems : list json)
| JObject (items : list (string * json)).
#[local] Set Elimination Schemes.

(** Induction over [json] that reaches the elements of arrays and the
    values of objects. *)
Section json_nested_induction.
Variable P : json → Prop.
Hypothesis Hnull : P JNull.
Hypothesis Hbool : ∀ b, P (JBool b).
Hypothesis Hnumber : ∀ n, P (JNumber n).
Hypothesis Hstring : ∀ s, P (JString s).
Hypothesis Harray : ∀ elems, Forall P elems → P (JArray elems).
Hypothesis Hobject : ∀ items, Forall (λ kv, P kv.2) items → P (JObject items).

Fixpoint json_nested_ind (v : json) : P v :=
  match v with
  | JNull => Hnull
  | JBool b => Hbool b
  | JNumber n => Hnumber n
  | JString s => Hstring s
  | JArray elems =>
      Harray elems
        ((fix elems_ok (l : list json) : Forall P l :=
            match l with
            | [] => Forall_nil_2 P
            | e :: l' => Forall_cons_2 P e l' (json_nested_ind e) (elems_ok l')
            end) elems)
  | JObject items =>
      Hobject items
        ((fix items_ok (l : list (string * json)) : Forall (λ kv, P kv.2) l :=
            match l with
            | [] => Forall_nil_2 _
            | kv :: l' =>
                Forall_cons_2 (λ kv, P kv.2) kv l' (json_nested_ind kv.2) (items_ok l')
            end) items)
  end.
End json_nested_induction.

(** ** Python string primitives *)

(** [len(s)] *)
Definition len (s : string) : Z := Z.of_nat (String.length s).

(** [s[:stop]]: a negative [stop] counts from the end of the string, and
    both ends are clamped to the string. *)
Definition slice_to (s : string) (stop : Z) : string :=
  let n := len s in
  let stop' := if stop <? 0 then Z.max (stop + n) 0 else Z.min stop n in
  String.substring 0 (Z.to_nat stop') s.

(** [str(n)] of an [int], as an f-string field renders it. *)
Definition str_of_int (n : Z) : string :=
  NilEmpty.string_of_int (Z.to_int n).

(** [bool(s)] of a string: non-empty. *)
Definition truthy (s : string) : bool :=
  match s with
  | EmptyString => false
  | String _ _ => true
  end.

(** ** Types and summaries *)

(** The last line of the source, [type(value).__name__], is for values that
    [json.loads] never builds; [json] has no such value. *)
Definition type_name (value : json) : string :=
  match value with
  | JNull => "null"
  | JBool _ => "bool"
  | JNumber _ => "number"
  | JString _ => "string"
  | JArray _ => "array"
  | JObject _ => "object"
  end.

(** The suffix [f"...(truncated, original_len={len(v)})"]. *)
Definition truncation_marker (original_len : Z) : string :=
  "...(truncated, original_len=" +:+ str_of_int original_len +:+ ")".

(** The summary is again a Python value: a [str], a scalar, or a [dict]
    with string keys, which is a [JObject] in insertion order. *)
Definition summarize_value (v : json) (max_string_len : Z) : json :=
  match v with
  | JString s =>
      if len s <=? max_string_len then JString s
      else JString (slice_to s max_string_len +:+ truncation_marker (len s))
  | JArray elems =>
      let sample_type :=
        match elems with
        | [] => JNull
        | e :: _ => JString (type_name e)
        end in
      JObject [("__kind__", JString "array");
               ("len", JNumber (Int (Z.of_nat (length elems))));
               ("sample_type", sample_type)]
  | JObject items =>
      let keys := take MAX_OBJECT_KEYS_IN_SUMMARY items.*1 in
      JObject [("__kind__", JString "object");
               ("keys", JArray (JString <$> keys))]
  | _ => v
  end.

(** ** The accumulator store *)

(** [st["string_length_stats"]]: [min] and [max] are [None] until the
    first string is seen. *)
Record length_stats : Type := LengthStats {
  sls_min : option Z;
  sls_max : option Z;
  sls_sum : Z;
  sls_count : Z
}.

(** One accumulator of [field_stats]; [types] is the [Counter]. *)
Record field_stat : Type := FieldStat {
  count : Z;
  types : gmap string Z;
  examples : list json;
  string_length_stats : length_stats
}.

(** The dict literal that [setdefault] receives; Python builds a new one
    at every call, so two paths never share an accumulator. *)
Definition new_field_stats : field_stat :=
  {| count := 0;
     types := ∅;
     examples := [];
     string_length_stats :=
       {| sls_min := None; sls_max := None; sls_sum := 0; sls_count := 0 |} |}.

(** [stats.setdefault(path, {...})]: the store after the call and the
    accumulator it returns. *)
Definition ensure_field_stats (stats : gmap string field_stat) (path : string)
  : gmap string field_stat * field_stat :=
  match stats !! path with
  | Some st => (stats, st)
  | None => (<[path := new_field_stats]> stats, new_field_stats)
  end.

(** [counter[key]]: a missing key reads as 0. *)
Definition counter_get (c : gmap string Z) (key : string) : Z :=
  default 0 (c !! key).

(** The four assignments of the [isinstance(value, str)] branch. *)
Definition observe_length (sls : length_stats) (l : Z) : length_stats :=
  let min' :=
    match sls_min sls with
    | None => Some l
    | Some m => if l <? m then Some l else Some m
    end in
  let max' :=
    match sls_max sls with
    | None => Some l
    | Some m => if l >? m then Some l else Some m
    end in
  {| sls_min := min'; sls_max := max';
     sls_sum := sls_sum sls + l; sls_count := sls_count sls + 1 |}.

(** The accumulator [st] after the in-place updates of one observation. *)
Definition observe (st : field_stat) (value : json)
    (max_examples_per_key max_string_example_len : Z) : field_stat :=
  let count' := count st + 1 in
  let types' :=
    <[type_name value := counter_get (types st) (type_name value) + 1]> (types st) in
  let sls' :=
    match value with
    | JString s => observe_length (string_length_stats st) (len s)
    | _ => string_length_stats st
    end in
  let examples' :=
    if Z.of_nat (length (examples st)) <? max_examples_per_key
    then examples st ++ [summarize_value value max_string_example_len]
    else examples st in
  {| count := count'; types := types'; examples := examples';
     string_length_stats := sls' |}.

(** [st] is the object stored under [path], so mutating it is writing the
    updated accumulator back into the store. *)
Definition update_field_stats (stats : gmap string field_stat) (path : string)
    (value : json) (max_examples_per_key max_string_example_len : Z)
  : gmap string field_stat :=
  let '(stats, st) := ensure_field_stats stats path in
  <[path := observe st value max_examples_per_key max_string_example_len]> stats.

(** ** The path walk *)

(** [f"{path}.{k}" if path else k] *)
Definition object_child_path (path k : string) : string :=
  if truthy path then path +:+ "." +:+ k else k.

(** [f"{path}[]" if path else "[]"] *)
Definition array_child_path (path : string) : string :=
  if truthy path then path +:+ "[]" else "[]".

Fixpoint walk_value (stats : gmap string field_stat) (path : string)
    (value : json) (depth max_depth max_examples_per_key
    max_string_example_len max_array_items : Z) {struct value}
  : gmap string field_stat :=
  if depth >? max_depth then stats
  else
    let stats :=
      update_field_stats stats path value
        max_examples_per_key max_string_example_len in
    match value with
    | JObject items =>
        if depth =? max_depth then stats
        else
          (fix for_items (items : list (string * json))
               (stats : gmap string field_stat) : gmap string field_stat :=
             match items with
             | [] => stats
             | (k, v) :: rest =>
                 for_items rest
                   (walk_value stats (object_child_path path k) v (depth + 1)
                      max_depth max_examples_per_key max_string_example_len
                      max_array_items)
             end) items stats
    | JArray elems =>
        if depth =? max_depth then stats
        else
          let child_path := array_child_path path in
          (fix for_elems (elems : list json) (i : Z)
               (stats : gmap string field_stat) : gmap string field_stat :=
             match elems with
             | [] => stats
             | elem :: rest =>
                 if i >=? max_array_items then stats
                 else
                   for_elems rest (i + 1)
                     (walk_value stats child_path elem (depth + 1)
                        max_depth max_examples_per_key max_string_example_len
                        max_array_items)
             end) elems 0 stats
    | _ => stats
    end.

(** The two [for] loops of [walk_value], as functions of their own. *)
Fixpoint walk_items (stats : gmap string field_stat) (path : string)
    (items : list (string * json)) (depth max_depth max_examples_per_key
    max_string_example_len max_array_items : Z) : gmap string field_stat :=
  match items with
  | [] => stats
  | (k, v) :: rest =>
      walk_items
        (walk_value stats (object_child_path path k) v (depth + 1)
           max_depth max_examples_per_key max_string_example_len max_array_items)
        path rest depth max_depth max_examples_per_key max_string_example_len
        max_array_items
  end.

(** [i] is the index that [enumerate] hands out; the loop [break]s at the
    first index that reaches [max_array_items]. *)
Fixpoint walk_elems (stats : gmap string field_stat) (child_path : string)
    (elems : list json) (i depth max_depth max_examples_per_key
    max_string_example_len max_array_items : Z) : gmap string field_stat :=
  match elems with
  | [] => stats
  | elem :: rest =>
      if i >=? max_array_items then stats
      else
        walk_elems
          (walk_value stats child_path elem (depth + 1)
             max_depth max_examples_per_key max_string_example_len max_array_items)
          child_path rest (i + 1) depth max_depth max_examples_per_key
          max_string_example_len max_array_items
  end.

(** What [walk_value] does after the observation of the node itself. *)
Definition walk_children (stats : gmap string field_stat) (path : string)
    (value : json) (depth max_depth max_examples_per_key
    max_string_example_len max_array_items : Z) : gmap string field_stat :=
  match value with
  | JObject items =>
      if depth =? max_depth then stats
      else walk_items stats path items depth max_depth max_examples_per_key
             max_string_example_len max_array_items
  | JArray elems =>
      if depth =? max_depth then stats
      else walk_elems stats (array_child_path path) elems 0 depth max_depth
             max_examples_per_key max_string_example_len max_array_items
  | _ => stats
  end.

(** ** The profile of a corpus *)

(** The loop over [record.items()] in [profile_root]: every top-level key
    is walked at depth 0 with the key as its path. *)
Fixpoint walk_record (field_stats : gmap string field_stat)
    (record : list (string * json)) (max_depth max_examples_per_key
    max_string_example_len max_array_items : Z) : gmap string field_stat :=
  match record with
  | [] => field_stats
  | (k, v) :: rest =>
      walk_record
        (walk_value field_stats k v 0 max_depth max_examples_per_key
           max_string_example_len max_array_items)
        rest max_depth max_examples_per_key max_string_example_len
        max_array_items
  end.

(** [a < b] on finite floats. *)
Definition float_lt (a b : Q) : bool := negb (Qle_bool b a).

(** The loop over the records that the files under [root] yield, in the
    order they are yielded. [random] is the sequence of results of
    [random.random()], [drawn] the number of draws made so far. The result
    is [(field_stats, total_records, total_records_seen)]. *)
Fixpoint profile_records (records : list json) (random : nat → Q) (drawn : nat)
    (field_stats : gmap string field_stat)
    (total_records total_records_seen : Z)
    (max_examples_per_key max_string_example_len : Z) (sample_rate : Q)
    (max_depth max_array_items : Z)
  : gmap string field_stat * Z * Z :=
  match records with
  | [] => (field_stats, total_records, total_records_seen)
  | JObject record :: rest =>
      let total_records_seen := total_records_seen + 1 in
      let '(skip, drawn) :=
        if float_lt sample_rate 1
        then (float_lt sample_rate (random drawn), S drawn)
        else (false, drawn) in
      if skip then
        profile_records rest random drawn field_stats total_records
          total_records_seen max_examples_per_key max_string_example_len
          sample_rate max_depth max_array_items
      else
        profile_records rest random drawn
          (walk_record field_stats record max_depth max_examples_per_key
             max_string_example_len max_array_items)
          (total_records + 1) total_records_seen max_examples_per_key
          max_string_example_len sample_rate max_depth max_array_items
  | _ :: rest =>
      profile_records rest random drawn field_stats total_records
        total_records_seen max_examples_per_key max_string_example_len
        sample_rate max_depth max_array_items
  end.

(** The reported [string_length_stats] of a path. *)
Record length_report : Type := LengthReport {
  lr_min : option Z;
  lr_max : option Z;
  lr_avg : option Q;
  lr_count : Z
}.

(** One entry of [result_keys]. [coverage] and [avg] are the exact
    quotients whose nearest double Python stores. *)
Record field_report : Type := FieldReport {
  fr_count : Z;
  fr_coverage : Q;
  fr_types : gmap string Z;
  fr_examples : list json;
  fr_string_length_stats : length_report
}.

(** The body of the loop over [field_stats.items()]. *)
Definition finalize_field (total_records : Z) (st : field_stat) : field_report :=
  let count := count st in
  let sls := string_length_stats st in
  let avg_len :=
    if sls_count sls >? 0
    then Some (inject_Z (sls_sum sls) / inject_Z (sls_count sls))%Q
    else None in
  {| fr_count := count;
     fr_coverage :=
       if total_records >? 0
       then (inject_Z count / inject_Z total_records)%Q
       else 0%Q;
     fr_types := types st;
     fr_examples := examples st;
     fr_string_length_stats :=
       {| lr_min := sls_min sls; lr_max := sls_max sls;
          lr_avg := avg_len; lr_count := sls_count sls |} |}.

(** The dict that [profile_root] returns. *)
Record profile : Type := Profile {
  p_total_records : Z;
  p_total_records_seen : Z;
  p_sample_rate : Q;
  p_max_depth : Z;
  p_max_array_items : Z;
  p_keys : gmap string field_report
}.

(** [profile_root]; the walk of the directory tree and the parsing of the
    files are the record source, whose output is [records]. *)
Definition profile_root (records : list json) (random : nat → Q)
    (max_examples_per_key max_string_example_len : Z) (sample_rate : Q)
    (max_depth max_array_items : Z) : profile :=
  let '(field_stats, total_records, total_records_seen) :=
    profile_records records random 0%nat ∅ 0 0 max_examples_per_key
      max_string_example_len sample_rate max_depth max_array_items in
  {| p_total_records := total_records;
     p_total_records_seen := total_records_seen;
     p_sample_rate := sample_rate;
     p_max_depth := max_depth;
     p_max_array_items := max_array_items;
     p_keys := finalize_field total_records <$> field_stats |}.

(** ** The record source *)

(** [str(type(obj))] for the values that reach the last branch of
    [iter_records_from_file]. *)
Definition class_repr (obj : json) : string :=
  match obj with
  | JNull => "<class 'NoneType'>"
  | JBool _ => "<class 'bool'>"
  | JNumber (Int _) => "<class 'int'>"
  | JNumber (Float _) => "<class 'float'>"
  | JString _ => "<class 'str'>"
  | JArray _ => "<class 'list'>"
  | JObject _ => "<class 'dict'>"
  end.

(** [isinstance(obj, dict)] *)
Definition is_dict (obj : json) : bool :=
  match obj with
  | JObject _ => true
  | _ => false
  end.

(** The line feed that ends a diagnostic. *)
Definition newline : string := String "010"%char EmptyString.

(** What a call of [json.loads] does: it returns a value, it raises
    [json.JSONDecodeError], or it raises something else ([ValueError] for
    an integer literal beyond the digit limit, [RecursionError] for a
    document nested too deep), which no handler of the module catches. *)
Inductive load_result : Type :=
| Loaded (obj : json)
| DecodeError
| OtherError.

(** A run of the generator [iter_records_from_file] to its end: the
    records it yields, in order, and the lines it writes to [sys.stderr];
    or an exception leaves it. Either call of [json.loads] comes before
    the first [yield] and the first write on its path, so an exception
    leaves with nothing yielded and nothing written. *)
Inductive source_outcome : Type :=
| Finished (records : list json) (diagnostics : list string)
| Raised.

Definition yielded (outcome : source_outcome) : list json :=
  match outcome with
  | Finished records _ => records
  | Raised => []
  end.

Definition written (outcome : source_outcome) : list string :=
  match outcome with
  | Finished _ diagnostics => diagnostics
  | Raised => []
  end.

(** [iter_records_from_file], for a file whose text has been read. The
    library functions are parameters: [json_loads] is [json.loads];
    [splitlines] and [strip] are the methods of [str]. *)
Section record_source.
Variable json_loads : string → load_result.
Variable splitlines : string → list string.
Variable strip : string → string.

(** The loop of the JSONL attempt: [(jsonl_ok, records)] at its end, or
    [None] when an exception other than [JSONDecodeError] leaves it. *)
Fixpoint jsonl_attempt (lines : list string) (records : list json)
  : option (bool * list json) :=
  match lines with
  | [] => Some (true, records)
  | line :: rest =>
      let line := strip line in
      if negb (truthy line) then jsonl_attempt rest records
      else
        match json_loads line with
        | Loaded obj =>
            if is_dict obj then jsonl_attempt rest (records ++ [obj])
            else Some (false, [])
        | DecodeError => Some (false, [])
        | OtherError => None
        end
  end.

(** The second attempt: the whole text as one JSON document. *)
Definition whole_json_records (path text : string) : source_outcome :=
  match json_loads text with
  | OtherError => Raised
  | DecodeError =>
      Finished []
        ["[WARN] Failed to parse " +:+ path +:+ " as JSON/JSONL" +:+ newline]
  | Loaded (JArray items) =>
      Finished (filter (λ item, is_dict item = true) items) []
  | Loaded (JObject items) => Finished [JObject items] []
  | Loaded obj =>
      Finished []
        ["[WARN] Unsupported JSON root type in " +:+ path +:+ ": "
         +:+ class_repr obj +:+ newline]
  end.

Definition iter_records_from_file (path text : string) : source_outcome :=
  match jsonl_attempt (splitlines text) [] with
  | None => Raised
  | Some (jsonl_ok, records) =>
      if jsonl_ok && negb (bool_decide (records = [])) then Finished records []
      else whole_json_records path text
  end.

(** The lines that the JSONL attempt parses: stripped and not empty. *)
Definition nonblank_lines (text : string) : list string :=
  filter (λ line, truthy line = true) (strip <$> splitlines text).

(** The [dict] that [json.loads(line)] returns, if it returns one. *)
Definition loaded_dict (line : string) : option json :=
  match json_loads line with
  | Loaded obj => if is_dict obj then Some obj else None
  | _ => None
  end.

(** [json.loads(line)] returns a [dict]. *)
Definition parses_to_dict (line : string) : bool :=
  match json_loads line with
  | Loaded obj => is_dict obj
  | _ => false
  end.

(** The JSONL loop over lines that are stripped and not empty. *)
Fixpoint jsonl_scan (lines : list string) (records : list json)
  : option (bool * list json) :=
  match lines with
  | [] => Some (true, records)
  | line :: rest =>
      match json_loads line with
      | Loaded obj =>
          if is_dict obj then jsonl_scan rest (records ++ [obj])
          else Some (false, [])
      | DecodeError => Some (false, [])
      | OtherError => None
      end
  end.
End record_source.

(** * The vocabulary of the properties

    In the statements below [K], [L] and [A] stand for the options
    [max_examples_per_key], [max_string_example_len] and
    [max_array_items]. *)

(** The accumulator that [ensure_field_stats] hands out for [path]. *)
Definition stats_at (stats : gmap string field_stat) (path : string) : field_stat :=
  default new_field_stats (stats !! path).

(** [keys[path]["count"]], 0 for a path that was never observed. *)
Definition count_at (stats : gmap string field_stat) (path : string) : Z :=
  count (stats_at stats path).

(** Reading the marker back: the text between
    ["...(truncated, original_len="] and the closing [")"] is parsed as a
    decimal integer. *)
Fixpoint strip_prefix (p s : string) : option string :=
  match p, s with
  | EmptyString, _ => Some s
  | String a p', String b s' => if decide (a = b) then strip_prefix p' s' else None
  | String _ _, EmptyString => None
  end.

(** [s] without its last character, which has to be [")"]. *)
Fixpoint strip_closing (s : string) : option string :=
  match s with
  | EmptyString => None
  | String c EmptyString => if decide (c = ")"%char) then Some EmptyString else None
  | String c s' => String c <$> strip_closing s'
  end.

(** The original length that a truncation marker encodes. *)
Definition decode_marker (marker : string) : option Z :=
  body ← strip_prefix "...(truncated, original_len=" marker;
  digits ← strip_closing body;
  Z.of_int <$> NilEmpty.int_of_string digits.

(** [pre] is the first [n] characters of [s]. *)
Definition is_first_chars (n : Z) (s pre : string) : Prop :=
  len pre = n ∧ ∃ rest, s = pre +:+ rest.

(** The behaviour of the summarizer on a string [s], as it is claimed for
    every [max_string_len]. *)
Definition summarize_string_claim (s : string) (max_string_len : Z) : Prop :=
  (len s ≤ max_string_len →
     summarize_value (JString s) max_string_len = JString s)
  ∧ (max_string_len < len s →
     ∃ pre,
       is_first_chars max_string_len s pre
       ∧ summarize_value (JString s) max_string_len
         = JString (pre +:+ truncation_marker (len s))
       ∧ decode_marker (truncation_marker (len s)) = Some (len s)).

(** [sub in s] *)
Fixpoint str_contains (sub s : string) : bool :=
  String.prefix sub s
  || match s with
     | EmptyString => false
     | String _ s' => str_contains sub s'
     end.

(** A path that shows no nesting: no ['.'] and no ["[]"] in it. *)
Definition flat_path (p : string) : Prop :=
  str_contains "." p = false ∧ str_contains "[]" p = false.

(** The depth bound as it is claimed for a record walked into the empty
    store with [max_depth = 0]. *)
Definition depth0_claim (record : list (string * json)) (K L A : Z) : Prop :=
  let stats := walk_record ∅ record 0 K L A in
  dom stats = list_to_set record.*1
  ∧ ∀ p, p ∈ dom stats → flat_path p.

(** The record [{"a": [1, 2, 3]}]. *)
Definition record_a123 : list (string * json) :=
  [("a", JArray [JNumber (Int 1); JNumber (Int 2); JNumber (Int 3)])].

(** The example of array path collapsing as it is claimed, for every
    [max_depth >= 1] and whatever the other options are. *)
Definition array_collapse_claim (max_depth K L A : Z) : Prop :=
  1 ≤ max_depth →
  let stats := walk_record ∅ record_a123 max_depth K L A in
  dom stats = ({[ "a"; "a[]" ]} : gset string) ∧ count_at stats "a[]" = 3.

(** The fan-out bound as it is claimed: the number of observations that
    the walk of an array node adds to the child path. *)
Definition fan_out_claim (stats : gmap string field_stat) (path : string)
    (elems : list json) (depth max_depth K L A : Z) : Prop :=
  depth < max_depth →
  count_at (walk_value stats path (JArray elems) depth max_depth K L A)
    (path +:+ "[]")
  = count_at stats (path +:+ "[]") + Z.min (Z.of_nat (length elems)) A.

(** [sum(types.values())] *)
Definition sum_values (c : gmap string Z) : Z :=
  map_fold (λ _ v acc, v + acc) 0 c.

(** [count == sum(types.values())] for one accumulator. *)
Definition count_ok (st : field_stat) : Prop :=
  count st = sum_values (types st).

(** The predicate on [string_length_stats]: [min] is null exactly when
    [max] is, exactly when [count] is 0; with a positive [count],
    [min <= max] and [min * count <= sum <= max * count]. *)
Definition sls_ok (sls : length_stats) : Prop :=
  (sls_min sls = None ↔ sls_max sls = None)
  ∧ (sls_max sls = None ↔ sls_count sls = 0)
  ∧ (sls_count sls > 0 →
     ∃ mn mx,
       sls_min sls = Some mn ∧ sls_max sls = Some mx
       ∧ mn ≤ mx
       ∧ mn * sls_count sls ≤ sls_sum sls ≤ mx * sls_count sls).

(** The form of the predicate that one observation carries over: it
    also records that nothing has been summed before the first string. *)
Definition sls_inv (sls : length_stats) : Prop :=
  match sls_min sls, sls_max sls with
  | None, None => sls_count sls = 0 ∧ sls_sum sls = 0
  | Some mn, Some mx =>
      0 < sls_count sls ∧ mn ≤ mx
      ∧ mn * sls_count sls ≤ sls_sum sls ≤ mx * sls_count sls
  | _, _ => False
  end.

(** The stores that the profiler can build: the empty dict of
    [profile_root], changed by [update_field_stats] only. *)
Inductive reachable : gmap string field_stat → Prop :=
| reachable_empty : reachable ∅
| reachable_update stats path value K L :
    reachable stats → reachable (update_field_stats stats path value K L).

(** The records of a corpus that are objects, as their item lists: the
    ones that [profile_root] counts in [total_records_seen]. *)
Definition object_records (records : list json) : list (list (string * json)) :=
  omap (λ record, match record with JObject items => Some items | _ => None end)
    records.

(** The object records that the sampling of [profile_root] keeps, when
    [drawn] draws have been made before the first record. *)
Fixpoint kept_records (records : list json) (random : nat → Q) (drawn : nat)
    (sample_rate : Q) : list (list (string * json)) :=
  match records with
  | [] => []
  | JObject record :: rest =>
      let '(skip, drawn) :=
        if float_lt sample_rate 1
        then (float_lt sample_rate (random drawn), S drawn)
        else (false, drawn) in
      if skip then kept_records rest random drawn sample_rate
      else record :: kept_records rest random drawn sample_rate
  | _ :: rest => kept_records rest random drawn sample_rate
  end.

(** [r.startswith(p)] *)
Definition path_extends (p r : string) : Prop := ∃ rest, r = p +:+ rest.

(** The six results of [type_name]. *)
Definition type_tags : list string :=
  ["null"; "bool"; "number"; "string"; "array"; "object"].

(** Every count of [stats1] is at most the count of [stats2]. *)
Definition counts_le (stats1 stats2 : gmap string field_stat) : Prop :=
  ∀ p, count_at stats1 p ≤ count_at stats2 p.

(** An example that shows the shape of a value only: a scalar, a string,
    or a marker object that starts with its ["__kind__"]. *)
Definition shape_only (example : json) : Prop :=
  match example with
  | JArray _ => False
  | JObject items => ∃ kind rest, items = ("__kind__", JString kind) :: rest
  | _ => True
  end.

(** [stats'] holds everything that [stats] holds, and possibly more:
    no path is lost, no count goes down, and the examples of a path are
    only added to at their end. *)
Definition store_grows (stats stats' : gmap string field_stat) : Prop :=
  ∀ p,
    (is_Some (stats !! p) → is_Some (stats' !! p))
    ∧ count_at stats p ≤ count_at stats' p
    ∧ examples (stats_at stats p) `prefix_of` examples (stats_at stats' p).

(** An accumulator without its examples. *)
Definition erase_examples (st : field_stat) : field_stat :=
  {| count := count st; types := types st; examples := [];
     string_length_stats := string_length_stats st |}.

(** The type tags, value by value, in the words of the specification:
    null is ["null"], a boolean ["bool"], a number ["number"], a string
    ["string"], an array ["array"] and an object ["object"]. *)
Definition type_tags_as_specified : Prop :=
  type_name JNull = "null"
  ∧ (∀ b, type_name (JBool b) = "bool")
  ∧ (∀ n, type_name (JNumber n) = "number")
  ∧ (∀ s, type_name (JString s) = "string")
  ∧ (∀ elems, type_name (JArray elems) = "array")
  ∧ (∀ items, type_name (JObject items) = "object").

(** [summary] is the example that the specification asks for a value: a
    scalar as it is; a string as it is when it is within the bound, and
    for a bound that is not negative its first [L] characters followed by
    the marker with its length when it is longer; for an array the marker
    with its length and the type tag of its first element; for an object
    the marker with its first 20 keys, in order. *)
Definition summary_as_specified (v : json) (L : Z) (summary : json) : Prop :=
  match v with
  | JString s =>
      (len s ≤ L → summary = JString s)
      ∧ (0 ≤ L < len s →
         ∃ pre,
           is_first_chars L s pre
           ∧ summary
             = JString (pre +:+ "...(truncated, original_len="
                        +:+ str_of_int (len s) +:+ ")"))
  | JArray elems =>
      summary
      = JObject [("__kind__", JString "array");
                 ("len", JNumber (Int (Z.of_nat (length elems))));
                 ("sample_type",
                  match elems with
                  | [] => JNull
                  | e :: _ => JString (type_name e)
                  end)]
  | JObject items =>
      ∃ keys,
        summary
        = JObject [("__kind__", JString "object");
                   ("keys", JArray (JString <$> keys))]
        ∧ length keys = Nat.min 20 (length items)
        ∧ ∀ i, (i < 20)%nat → keys !! i = items.*1 !! i
  | _ => summary = v
  end.

(** [new] is [old] after one more string of length [l]: one more in
    [count], [l] more in [sum], and [min] and [max] moved to [l] where it
    is a new extreme or the first length. *)
Definition length_stats_after (old : length_stats) (l : Z) (new : length_stats)
  : Prop :=
  sls_count new = sls_count old + 1
  ∧ sls_sum new = sls_sum old + l
  ∧ sls_min new
    = Some (match sls_min old with None => l | Some m => Z.min m l end)
  ∧ sls_max new
    = Some (match sls_max old with None => l | Some m => Z.max m l end).

(** * Properties *)

(** ** Reading the store *)

Lemma ensure_field_stats_snd stats path :
  (ensure_field_stats stats path).2 = stats_at stats path.
Proof.
  unfold ensure_field_stats, stats_at.
  by destruct (stats !! path).
Qed.

Lemma update_field_stats_insert stats path value K L :
  update_field_stats stats path value K L
  = <[path := observe (stats_at stats path) value K L]> stats.
Proof.
  unfold update_field_stats, ensure_field_stats, stats_at.
  destruct (stats !! path) as [st|]; simpl; [done|].
  by rewrite insert_insert_eq.
Qed.

Lemma update_field_stats_lookup stats path value K L :
  update_field_stats stats path value K L !! path
  = Some (observe (stats_at stats path) value K L).
Proof. by rewrite update_field_stats_insert, lookup_insert_eq. Qed.

Lemma update_field_stats_lookup_ne stats path value K L p :
  p ≠ path → update_field_stats stats path value K L !! p = stats !! p.
Proof. intros Hp. by rewrite update_field_stats_insert, lookup_insert_ne. Qed.

Lemma update_field_stats_dom stats path value K L :
  dom (update_field_stats stats path value K L) = {[path]} ∪ dom stats.
Proof. by rewrite update_field_stats_insert, dom_insert_L. Qed.

Lemma count_at_update stats path value K L :
  count_at (update_field_stats stats path value K L) path = count_at stats path + 1.
Proof.
  unfold count_at at 1, stats_at at 1.
  by rewrite update_field_stats_lookup.
Qed.

Lemma count_at_update_ne stats path value K L p :
  p ≠ path → count_at (update_field_stats stats path value K L) p = count_at stats p.
Proof.
  intros Hp. unfold count_at, stats_at.
  by rewrite update_field_stats_lookup_ne.
Qed.

(** ** The shape of the walk *)

Lemma walk_value_unfold stats path value depth max_depth K L A :
  walk_value stats path value depth max_depth K L A
  = if depth >? max_depth then stats
    else walk_children (update_field_stats stats path value K L)
           path value depth max_depth K L A.
Proof.
  destruct value as [| b | n | s | elems | items]; simpl;
    destruct (depth >? max_depth); try reflexivity;
    destruct (depth =? max_depth); try reflexivity.
  - generalize (update_field_stats stats path (JArray elems) K L).
    generalize 0.
    induction elems as [| e elems IH]; intros i s; simpl; [done|].
    destruct (i >=? A); [done|]. apply IH.
  - generalize (update_field_stats stats path (JObject items) K L).
    induction items as [| [k v] items IH]; intros s; simpl; [done|].
    apply IH.
Qed.

Lemma walk_value_beyond stats path value depth max_depth K L A :
  max_depth < depth →
  walk_value stats path value depth max_depth K L A = stats.
Proof.
  intros Hd. rewrite walk_value_unfold.
  destruct (Z.gtb_spec depth max_depth); [done | lia].
Qed.

Lemma walk_value_within stats path value depth max_depth K L A :
  depth ≤ max_depth →
  walk_value stats path value depth max_depth K L A
  = walk_children (update_field_stats stats path value K L)
      path value depth max_depth K L A.
Proof.
  intros Hd. rewrite walk_value_unfold.
  destruct (Z.gtb_spec depth max_depth); [lia | done].
Qed.

Lemma walk_value_boundary stats path value max_depth K L A :
  walk_value stats path value max_depth max_depth K L A
  = update_field_stats stats path value K L.
Proof.
  rewrite walk_value_within by lia.
  destruct value; simpl; try done; by rewrite Z.eqb_refl.
Qed.

(** The elements that the loop over an array reaches before it breaks. *)
Lemma walk_elems_take stats child elems i depth max_depth K L A :
  0 ≤ i →
  walk_elems stats child elems i depth max_depth K L A
  = foldl (λ s e, walk_value s child e (depth + 1) max_depth K L A) stats
      (take (Z.to_nat (A - i)) elems).
Proof.
  revert stats i.
  induction elems as [| e elems IH]; intros stats i Hi; simpl.
  - by rewrite take_nil.
  - destruct (Z.geb_spec i A) as [Hge | Hlt].
    + by replace (Z.to_nat (A - i)) with 0%nat by lia.
    + replace (Z.to_nat (A - i)) with (S (Z.to_nat (A - (i + 1)))) by lia.
      simpl. apply IH. lia.
Qed.

Lemma walk_items_foldl stats path items depth max_depth K L A :
  walk_items stats path items depth max_depth K L A
  = foldl (λ s kv, walk_value s (object_child_path path kv.1) kv.2
                     (depth + 1) max_depth K L A) stats items.
Proof.
  revert stats.
  induction items as [| [k v] items IH]; intros stats; simpl; [done|].
  apply IH.
Qed.

(** Whatever every single observation preserves, the whole walk
    preserves. *)
Section walk_preserves.
Variable P : gmap string field_stat → Prop.
Variables K L : Z.
Hypothesis update_ok :
  ∀ stats path value, P stats → P (update_field_stats stats path value K L).

Lemma walk_value_preserves value :
  ∀ stats path depth max_depth A,
    P stats → P (walk_value stats path value depth max_depth K L A).
Proof.
  induction value as [| b | n | s | elems IH | items IH]
    using json_nested_ind;
    intros stats path depth max_depth A HP;
    rewrite walk_value_unfold;
    (destruct (depth >? max_depth); [done|]);
    simpl; auto.
  - destruct (depth =? max_depth); [auto|].
    assert (Hs : P (update_field_stats stats path (JArray elems) K L)) by auto.
    revert Hs. generalize (update_field_stats stats path (JArray elems) K L).
    generalize 0.
    induction IH as [| e elems He _ IHelems]; intros i s Hs; simpl; [done|].
    destruct (i >=? A); [done|]. apply IHelems, He, Hs.
  - destruct (depth =? max_depth); [auto|].
    assert (Hs : P (update_field_stats stats path (JObject items) K L)) by auto.
    revert Hs. generalize (update_field_stats stats path (JObject items) K L).
    induction IH as [| [k v] items Hv _ IHitems]; intros s Hs; simpl; [done|].
    apply IHitems, Hv, Hs.
Qed.

Lemma walk_items_preserves items :
  ∀ stats path depth max_depth A,
    P stats → P (walk_items stats path items depth max_depth K L A).
Proof.
  induction items as [| [k v] items IH]; intros stats path depth max_depth A HP;
    simpl; [done|].
  apply IH, walk_value_preserves, HP.
Qed.

Lemma walk_elems_preserves elems :
  ∀ stats child i depth max_depth A,
    P stats → P (walk_elems stats child elems i depth max_depth K L A).
Proof.
  induction elems as [| e elems IH]; intros stats child i depth max_depth A HP;
    simpl; [done|].
  destruct (i >=? A); [done|].
  apply IH, walk_value_preserves, HP.
Qed.

Lemma walk_children_preserves stats path value depth max_depth A :
  P stats → P (walk_children stats path value depth max_depth K L A).
Proof.
  intros HP. destruct value; simpl; try done;
    destruct (depth =? max_depth); try done.
  - by apply walk_elems_preserves.
  - by apply walk_items_preserves.
Qed.

Lemma walk_record_preserves record :
  ∀ stats max_depth A,
    P stats → P (walk_record stats record max_depth K L A).
Proof.
  induction record as [| [k v] record IH]; intros stats max_depth A HP;
    simpl; [done|].
  apply IH, walk_value_preserves, HP.
Qed.
End walk_preserves.

(** A walk never takes an observation back. *)
Lemma count_at_update_mono stats path value K L p :
  count_at stats p ≤ count_at (update_field_stats stats path value K L) p.
Proof.
  destruct (decide (p = path)) as [-> | Hp].
  - rewrite count_at_update. lia.
  - rewrite count_at_update_ne by done. lia.
Qed.

Lemma count_at_walk_children_mono stats path value depth max_depth K L A p :
  count_at stats p
  ≤ count_at (walk_children stats path value depth max_depth K L A) p.
Proof.
  apply (walk_children_preserves (λ s, count_at stats p ≤ count_at s p)); [|lia].
  intros s q v Hs. etrans; [exact Hs|]. apply count_at_update_mono.
Qed.

(** What one observation does to an accumulator. *)
Lemma observe_effect st value K L :
  let st' := observe st value K L in
  count st' = count st + 1
  ∧ counter_get (types st') (type_name value)
    = counter_get (types st) (type_name value) + 1
  ∧ (∀ tag, tag ≠ type_name value →
       counter_get (types st') tag = counter_get (types st) tag)
  ∧ string_length_stats st'
    = match value with
      | JString s => observe_length (string_length_stats st) (len s)
      | _ => string_length_stats st
      end
  ∧ examples st'
    = if Z.of_nat (length (examples st)) <? K
      then examples st ++ [summarize_value value L]
      else examples st.
Proof.
  simpl. unfold counter_get. repeat split.
  - by rewrite lookup_insert_eq.
  - intros tag Htag. by rewrite lookup_insert_ne.
Qed.

(** ** C3: the node is observed once at the depth boundary, and always
    before its children *)

Lemma substring_is_prefix s :
  ∀ k, (k ≤ String.length s)%nat →
    String.length (String.substring 0 k s) = k
    ∧ ∃ rest, s = String.substring 0 k s +:+ rest.
Proof.
  induction s as [| a s IH]; intros [| k] Hk; simpl in *; try lia.
  - split; [done|]. by exists EmptyString.
  - split; [done|]. by exists (String a s).
  - destruct (IH k) as [Hlen [rest Hrest]]; [lia|].
    split; [by rewrite Hlen|]. exists rest.
    change (String a s = String a (String.substring 0 k s +:+ rest)).
    by f_equal.
Qed.

Lemma slice_to_nonneg s stop :
  0 ≤ stop ≤ len s → is_first_chars stop s (slice_to s stop).
Proof.
  intros [H0 Hs]. unfold slice_to, is_first_chars.
  destruct (Z.ltb_spec stop 0); [lia|].
  rewrite Z.min_l by done.
  destruct (substring_is_prefix s (Z.to_nat stop)) as [Hlen Hrest].
  { unfold len in Hs. lia. }
  split; [|done]. unfold len. rewrite Hlen. lia.
Qed.

Lemma type_name_as_specified : type_tags_as_specified.
Proof. by repeat split. Qed.

Lemma summarize_value_as_specified v L :
  summary_as_specified v L (summarize_value v L).
Proof.
  destruct v as [| b | n | s | elems | items]; try done.
  - cbn [summary_as_specified summarize_value].
    destruct (Z.leb_spec (len s) L) as [Hle | Hlt].
    + split; [done | lia].
    + split; [lia|]. intros HL. exists (slice_to s L).
      split; [apply slice_to_nonneg; lia | done].
  - exists (take 20 items.*1). split; [done|]. split.
    + by rewrite length_take, length_fmap.
    + intros i Hi. by apply lookup_take_lt.
Qed.

Lemma observe_length_after sls l :
  length_stats_after sls l (observe_length sls l).
Proof.
  unfold length_stats_after, observe_length. simpl.
  split; [done|]. split; [done|]. split.
  - destruct (sls_min sls) as [m|]; [|done].
    destruct (Z.ltb_spec l m); f_equal; lia.
  - destruct (sls_max sls) as [m|]; [|done].
    destruct (Z.gtb_spec l m); f_equal; lia.
Qed.

(** C3. One observation of a value at a path, the store [stats1] after
    [update_field_stats], puts under [path] the old accumulator (or a new
    one) with: [count] one higher; the tally of the type tag of the value
    one higher and the other tallies as they were, the tags being the
    specified ones; for a string the length statistics moved by its
    length, for any other value left as they were; and, while there is
    room for an example, the specified summary of the value appended to
    the examples, which are otherwise left as they were. Every other
    entry is as before. A call of [walk_value] with [depth = max_depth]
    returns exactly [stats1], whatever the kind of the value, so no child
    is walked. With [depth <= max_depth] the walk is the walk of the
    children started from [stats1], so the node is observed before any
    recursion, and the count of [path] has grown by at least one at the
    end. *)
Theorem walk_value_observes_then_recurses stats path value depth max_depth K L A :
  let st := stats_at stats path in
  let st' := observe st value K L in
  let stats1 := update_field_stats stats path value K L in
  (stats1 !! path = Some st'
   ∧ (∀ p, p ≠ path → stats1 !! p = stats !! p)
   ∧ count st' = count st + 1
   ∧ type_tags_as_specified
   ∧ counter_get (types st') (type_name value)
     = counter_get (types st) (type_name value) + 1
   ∧ (∀ tag, tag ≠ type_name value →
        counter_get (types st') tag = counter_get (types st) tag)
   ∧ match value with
     | JString s =>
         length_stats_after (string_length_stats st) (len s)
           (string_length_stats st')
     | _ => string_length_stats st' = string_length_stats st
     end
   ∧ (K ≤ Z.of_nat (length (examples st)) → examples st' = examples st)
   ∧ (Z.of_nat (length (examples st)) < K →
      ∃ example,
        examples st' = examples st ++ [example]
        ∧ summary_as_specified value L example))
  ∧ (depth = max_depth →
     walk_value stats path value depth max_depth K L A = stats1)
  ∧ (depth ≤ max_depth →
     walk_value stats path value depth max_depth K L A
     = walk_children stats1 path value depth max_depth K L A
     ∧ count_at stats path + 1
       ≤ count_at (walk_value stats path value depth max_depth K L A) path).
Proof.
  cbv zeta. split; [|split].
  - pose proof (observe_effect (stats_at stats path) value K L) as He.
    cbv zeta in He. destruct He as (Hc & Ht & Hother & Hsls & Hex).
    split; [apply update_field_stats_lookup|].
    split; [intros p Hp; by apply update_field_stats_lookup_ne|].
    split; [done|]. split; [apply type_name_as_specified|].
    split; [done|]. split; [done|].
    split.
    { rewrite Hsls. destruct value; try done. apply observe_length_after. }
    rewrite Hex. split.
    + intros Hfull.
      by destruct (Z.ltb_spec
                     (Z.of_nat (length (examples (stats_at stats path)))) K);
        [lia|].
    + intros Hroom.
      destruct (Z.ltb_spec
                  (Z.of_nat (length (examples (stats_at stats path)))) K);
        [|lia].
      eexists. split; [done|]. apply summarize_value_as_specified.
  - intros ->. apply walk_value_boundary.
  - intros Hd. rewrite walk_value_within by done. split; [done|].
    rewrite <- (count_at_update stats path value K L).
    apply count_at_walk_children_mono.
Qed.

Lemma walk_value_observes_then_recurses_witness :
  walk_value ∅ "a" (JArray [JNull; JBool true]) 2 2 5 200 5 !! "a"
  = Some (observe new_field_stats (JArray [JNull; JBool true]) 5 200)
  ∧ examples (observe new_field_stats (JArray [JNull; JBool true]) 5 200)
    = [JObject [("__kind__", JString "array"); ("len", JNumber (Int 2));
                ("sample_type", JString "null")]]
  ∧ string_length_stats (observe new_field_stats (JString "hi") 5 200)
    = {| sls_min := Some 2; sls_max := Some 2; sls_sum := 2; sls_count := 1 |}
  ∧ count_at ∅ "a" + 1
    ≤ count_at (walk_value ∅ "a" (JArray [JNull; JBool true]) 0 2 5 200 5) "a".
Proof.
  destruct (walk_value_observes_then_recurses
              ∅ "a" (JArray [JNull; JBool true]) 2 2 5 200 5)
    as ((Hlookup & _ & _ & Htags & _ & _ & _ & _ & Hexample) & Hboundary & _).
  destruct (walk_value_observes_then_recurses
              ∅ "s" (JString "hi") 0 0 5 200 5)
    as ((_ & _ & _ & _ & _ & _ & Hsls & _) & _).
  destruct (walk_value_observes_then_recurses
              ∅ "a" (JArray [JNull; JBool true]) 0 2 5 200 5)
    as (_ & _ & Hwithin).
  split; [by rewrite Hboundary|].
  split.
  { destruct Hexample as (example & Hex & Hsummary); [by vm_compute|].
    change (stats_at ∅ "a") with new_field_stats in Hex.
    rewrite Hex. cbn [summary_as_specified] in Hsummary.
    rewrite Hsummary. destruct Htags as (Hnull & _). by rewrite Hnull. }
  split.
  { change (stats_at ∅ "s") with new_field_stats in Hsls.
    destruct Hsls as (Hc & Hs & Hmin & Hmax).
    destruct (string_length_stats
                (observe new_field_stats (JString "hi") 5 200))
      as [mn mx sm ct].
    simpl in *. by subst. }
  apply Hwithin. lia.
Defined.

(** ** C9: beyond the depth bound the store is not touched *)

Lemma walk_record_beyond stats record max_depth K L A :
  max_depth < 0 → walk_record stats record max_depth K L A = stats.
Proof.
  intros Hd. revert stats.
  induction record as [| [k v] record IH]; intros stats; simpl; [done|].
  rewrite walk_value_beyond by done. apply IH.
Qed.

(** C9. A call of [walk_value] with [max_depth < depth] returns the store
    it was given: no entry is created and none is modified. In particular
    a negative [max_depth] makes the walk of a whole record, which enters
    every top-level field at depth 0, leave the store as it was. *)
Theorem walk_value_beyond_max_depth stats path value depth max_depth K L A :
  max_depth < depth →
  walk_value stats path value depth max_depth K L A = stats
  ∧ (depth = 0 → ∀ record, walk_record stats record max_depth K L A = stats).
Proof.
  intros Hd. split.
  - by apply walk_value_beyond.
  - intros -> record. by apply walk_record_beyond.
Qed.

Lemma walk_value_beyond_max_depth_witness :
  walk_value {[ "x" := new_field_stats ]} "a" (JObject [("b", JNull)]) 0 (-1) 5 200 5
  = {[ "x" := new_field_stats ]}.
Proof.
  apply (walk_value_beyond_max_depth
           {[ "x" := new_field_stats ]} "a" (JObject [("b", JNull)]) 0 (-1) 5 200 5).
  lia.
Defined.

(** ** C4: string examples are kept or truncated with their length *)

Lemma strip_prefix_app p s : strip_prefix p (p +:+ s) = Some s.
Proof.
  induction p as [| a p IH]; simpl; [by destruct s|].
  by rewrite decide_True.
Qed.

Lemma strip_closing_app s : strip_closing (s +:+ ")") = Some s.
Proof.
  induction s as [| c s IH]; [done|].
  change (String c s +:+ ")") with (String c (s +:+ ")")).
  destruct s as [| c' s].
  - simpl. destruct c as [[] [] [] [] [] [] [] []]; done.
  - change (strip_closing (String c (String c' s +:+ ")")))
      with (String c <$> strip_closing (String c' s +:+ ")")).
    by rewrite IH.
Qed.

Lemma decode_truncation_marker n : decode_marker (truncation_marker n) = Some n.
Proof.
  unfold decode_marker, truncation_marker.
  rewrite strip_prefix_app. simpl.
  rewrite strip_closing_app. simpl.
  unfold str_of_int. rewrite NilEmpty.isi. simpl.
  by rewrite DecimalZ.of_to.
Qed.

(** [s[:stop]] for a negative [stop] drops the last [-stop] characters. *)
Lemma slice_to_negative s stop :
  stop < 0 →
  slice_to s stop = String.substring 0 (Z.to_nat (len s + stop)) s.
Proof.
  intros Hs. unfold slice_to.
  destruct (Z.ltb_spec stop 0); [|lia].
  f_equal. lia.
Qed.

(** With a negative bound every string is longer than the bound, and the
    slice keeps all but its last characters. *)
Lemma summarize_value_negative_len s max_string_len :
  max_string_len < 0 →
  summarize_value (JString s) max_string_len
  = JString (String.substring 0 (Z.to_nat (len s + max_string_len)) s
             +:+ truncation_marker (len s)).
Proof.
  intros Hn. simpl.
  destruct (Z.leb_spec (len s) max_string_len); [unfold len in *; lia|].
  by rewrite slice_to_negative.
Qed.

(** C4, as stated, fails for a negative [max_string_len]: the slice
    [v[:-2]] of ["hello"] is ["hel"], not a prefix of length -2. *)
Lemma summarize_string_claim_fails_negative_len :
  summarize_value (JString "hello") (-2)
  = JString "hel...(truncated, original_len=5)"
  ∧ ¬ summarize_string_claim "hello" (-2).
Proof.
  split; [reflexivity|].
  intros [_ Htrunc].
  destruct Htrunc as (pre & [Hlen _] & _); [vm_compute; reflexivity|].
  unfold len in Hlen. lia.
Qed.

(** C4 (amended). For every string and every [max_string_len >= 0]: a
    string of length at most [max_string_len] is returned unchanged; a
    longer one is returned as its first [max_string_len] characters
    followed by the truncation marker, and the marker decodes to the
    exact original length. *)
Theorem summarize_value_string s max_string_len :
  0 ≤ max_string_len → summarize_string_claim s max_string_len.
Proof.
  intros Hn. split.
  - intros Hle. simpl. by destruct (Z.leb_spec (len s) max_string_len); [|lia].
  - intros Hlt. exists (slice_to s max_string_len).
    split; [apply slice_to_nonneg; lia|].
    split; [|apply decode_truncation_marker].
    simpl. by destruct (Z.leb_spec (len s) max_string_len); [lia|].
Qed.

Lemma summarize_value_string_witness :
  summarize_string_claim "hello world" 4.
Proof.
  apply (summarize_value_string "hello world" 4). lia.
Defined.

(** ** C8: arrays and objects are summarized by their shape only *)

(** C8. The summary of an array is the fixed-shape marker with the kind
    tag ["array"], the length and the type tag of the first element (null
    for the empty array), the tags being the specified ones, so two arrays
    of the same length whose first elements have the same type tag have
    the same summary. The summary of an object is the kind tag
    ["object"] and its first 20 keys in iteration order, so two objects
    with the same keys have the same summary whatever their values are;
    the keys listed are as many as the object has, up to 20, and the i-th
    of them is the i-th key of the object. *)
Theorem summarize_value_erases_contents :
  type_tags_as_specified
  ∧ (∀ elems max_string_len,
       summarize_value (JArray elems) max_string_len
       = JObject [("__kind__", JString "array");
                  ("len", JNumber (Int (Z.of_nat (length elems))));
                  ("sample_type",
                   match head elems with
                   | Some e => JString (type_name e)
                   | None => JNull
                   end)])
  ∧ (∀ elems1 elems2 n1 n2,
       length elems1 = length elems2 →
       type_name <$> head elems1 = type_name <$> head elems2 →
       summarize_value (JArray elems1) n1 = summarize_value (JArray elems2) n2)
  ∧ (∀ items max_string_len,
       summarize_value (JObject items) max_string_len
       = JObject [("__kind__", JString "object");
                  ("keys", JArray (JString <$> take 20 items.*1))])
  ∧ (∀ items1 items2 n1 n2,
       items1.*1 = items2.*1 →
       summarize_value (JObject items1) n1 = summarize_value (JObject items2) n2)
  ∧ (∀ items max_string_len,
       ∃ keys,
         summarize_value (JObject items) max_string_len
         = JObject [("__kind__", JString "object");
                    ("keys", JArray (JString <$> keys))]
         ∧ length keys = Nat.min 20 (length items)
         ∧ ∀ i, (i < 20)%nat → keys !! i = items.*1 !! i).
Proof.
  split; [apply type_name_as_specified|].
  split; [|split; [|split; [|split]]].
  - intros [| e elems] n; reflexivity.
  - intros [| e1 elems1] [| e2 elems2] n1 n2 Hlen Hhd; simpl in *; try done.
    injection Hhd as ->. by rewrite Hlen.
  - reflexivity.
  - intros items1 items2 n1 n2 Hkeys. simpl. by rewrite Hkeys.
  - intros items n. apply (summarize_value_as_specified (JObject items) n).
Qed.

Lemma summarize_value_erases_contents_witness :
  summarize_value (JArray [JNumber (Int 1); JString "secret"]) 200
  = JObject [("__kind__", JString "array"); ("len", JNumber (Int 2));
             ("sample_type", JString "number")]
  ∧ summarize_value (JObject [("k", JString "secret"); ("m", JNull)]) 200
    = JObject [("__kind__", JString "object");
               ("keys", JArray [JString "k"; JString "m"])]
  ∧ summarize_value (JArray [JNumber (Int 1); JString "secret"]) 200
    = summarize_value (JArray [JNumber (Int 7); JNull]) 3
  ∧ summarize_value (JObject [("k", JString "secret")]) 200
    = summarize_value (JObject [("k", JNull)]) 3.
Proof.
  destruct summarize_value_erases_contents
    as (Htags & Harray & Harr & Hobject & Hobj & _).
  destruct Htags as (_ & _ & Hnumber & _).
  split; [rewrite Harray; cbn [head length Z.of_nat]; by rewrite Hnumber|].
  split; [by rewrite Hobject|].
  split.
  - apply Harr; [reflexivity|]. cbn [head fmap option_fmap option_map].
    by rewrite !Hnumber.
  - apply Hobj; reflexivity.
Defined.

(** ** C1: with [max_depth = 0] the paths are the top-level keys *)

Lemma walk_record_depth0 record :
  ∀ stats K L A,
    walk_record stats record 0 K L A
    = foldl (λ s kv, update_field_stats s kv.1 kv.2 K L) stats record.
Proof.
  induction record as [| [k v] record IH]; intros stats K L A; simpl; [done|].
  by rewrite walk_value_boundary, IH.
Qed.

Lemma walk_record_depth0_dom record :
  ∀ stats K L A,
    dom (walk_record stats record 0 K L A) = dom stats ∪ list_to_set record.*1.
Proof.
  induction record as [| [k v] record IH]; intros stats K L A; simpl.
  - by rewrite (right_id_L ∅ (∪)).
  - rewrite IH, walk_value_boundary, update_field_stats_dom.
    by rewrite (comm_L (∪) {[k]} (dom stats)), (assoc_L (∪)).
Qed.

(** C1, as stated, fails for a record whose top-level key has a dot in
    it: the key is used as the path as it is. *)
Lemma depth0_claim_fails_dotted_key :
  dom (walk_record ∅ [("a.b", JNull)] 0 5 200 5) = ({[ "a.b" ]} : gset string)
  ∧ ¬ depth0_claim [("a.b", JNull)] 5 200 5.
Proof.
  assert (Hdom : dom (walk_record ∅ [("a.b", JNull)] 0 5 200 5)
                 = ({[ "a.b" ]} : gset string)).
  { rewrite walk_record_depth0_dom, dom_empty_L, (left_id_L ∅ (∪)). simpl.
    by rewrite (right_id_L ∅ (∪)). }
  split; [done|].
  intros [_ Hflat].
  destruct (Hflat "a.b") as [Hdot _]; [rewrite Hdom; by apply elem_of_singleton|].
  vm_compute in Hdot. discriminate.
Qed.

(** C1 (amended). A record walked with [max_depth = 0] adds exactly its
    top-level keys to the paths of the store; from the empty store the
    paths are exactly the top-level keys, each used as it is, so no path
    contains ['.'] or ["[]"] when no top-level key of the record does. *)
Theorem walk_record_depth0_paths stats record K L A :
  dom (walk_record stats record 0 K L A) = dom stats ∪ list_to_set record.*1
  ∧ dom (walk_record ∅ record 0 K L A) = list_to_set record.*1
  ∧ ((∀ k, k ∈ record.*1 → flat_path k) →
     ∀ p, p ∈ dom (walk_record ∅ record 0 K L A) → flat_path p).
Proof.
  split; [apply walk_record_depth0_dom|].
  assert (Hdom : dom (walk_record ∅ record 0 K L A)
                 = (list_to_set record.*1 : gset string)).
  { by rewrite walk_record_depth0_dom, dom_empty_L, (left_id_L ∅ (∪)). }
  split; [done|].
  intros Hkeys p Hp. apply Hkeys.
  rewrite Hdom in Hp. by apply elem_of_list_to_set in Hp.
Qed.

Lemma walk_record_depth0_paths_witness :
  dom (walk_record ∅ [("a", JObject [("b", JNull)]); ("c", JArray [JNull])]
         0 5 200 5)
  = (list_to_set ["a"; "c"] : gset string)
  ∧ flat_path "c".
Proof.
  destruct (walk_record_depth0_paths ∅
              [("a", JObject [("b", JNull)]); ("c", JArray [JNull])] 5 200 5)
    as (_ & Hdom & Hflat).
  split; [exact Hdom|].
  apply Hflat.
  - intros k Hk. simpl in Hk.
    apply elem_of_cons in Hk as [-> | Hk]; [by vm_compute|].
    apply elem_of_cons in Hk as [-> | Hk]; [by vm_compute|].
    by apply elem_of_nil in Hk.
  - rewrite Hdom. apply elem_of_list_to_set. simpl.
    apply elem_of_cons. right. apply elem_of_cons. by left.
Defined.

(** ** Paths only grow below a node *)

Lemma string_length_app (a b : string) :
  String.length (a +:+ b) = (String.length a + String.length b)%nat.
Proof. induction a as [| c a IH]; simpl; [done | by rewrite IH]. Qed.

Lemma array_child_path_app path : array_child_path path = path +:+ "[]".
Proof. by destruct path. Qed.

Lemma array_child_path_longer path :
  array_child_path path ≠ ""
  ∧ (String.length path < String.length (array_child_path path))%nat.
Proof.
  rewrite array_child_path_app. split.
  - intros H. apply (f_equal String.length) in H.
    rewrite string_length_app in H. simpl in H. lia.
  - rewrite string_length_app. simpl. lia.
Qed.

Lemma object_child_path_longer path k :
  path ≠ "" →
  object_child_path path k ≠ ""
  ∧ (String.length path < String.length (object_child_path path k))%nat.
Proof.
  intros Hpath. unfold object_child_path.
  destruct path as [| c path]; [done|]. simpl. split; [done|].
  rewrite string_length_app. simpl. lia.
Qed.

(** Below a node with a non-empty path every path is longer than the
    path of the node, so the walk of the node changes no entry whose path
    is at most that long, apart from the observation of the node itself. *)
Lemma walk_value_lookup_short value :
  ∀ stats path depth max_depth K L A r,
    path ≠ "" →
    (String.length r ≤ String.length path)%nat →
    walk_value stats path value depth max_depth K L A !! r
    = (if depth >? max_depth then stats
       else update_field_stats stats path value K L) !! r.
Proof.
  induction value as [| b | n | s | elems IH | items IH] using json_nested_ind;
    intros stats path depth max_depth K L A r Hpath Hr;
    rewrite walk_value_unfold;
    (destruct (depth >? max_depth) eqn:Hgt; [done|]);
    simpl; try done.
  - destruct (depth =? max_depth); [done|].
    destruct (array_child_path_longer path) as [Hne Hlen].
    generalize (update_field_stats stats path (JArray elems) K L).
    generalize 0.
    induction IH as [| e elems He _ IHelems]; intros i s; simpl; [done|].
    destruct (i >=? A); [done|].
    rewrite IHelems, He by (done || lia).
    destruct (depth + 1 >? max_depth); [done|].
    apply update_field_stats_lookup_ne. intros ->. lia.
  - destruct (depth =? max_depth); [done|].
    generalize (update_field_stats stats path (JObject items) K L).
    induction IH as [| [k v] items Hv _ IHitems]; intros s; simpl; [done|].
    destruct (object_child_path_longer path k Hpath) as [Hne Hlen].
    simpl in Hv.
    rewrite IHitems, Hv by (done || lia).
    destruct (depth + 1 >? max_depth); [done|].
    apply update_field_stats_lookup_ne. intros ->. lia.
Qed.

Lemma count_at_walk_value_own stats path value depth max_depth K L A :
  path ≠ "" → depth ≤ max_depth →
  count_at (walk_value stats path value depth max_depth K L A) path
  = count_at stats path + 1.
Proof.
  intros Hpath Hd.
  rewrite <- (count_at_update stats path value K L).
  unfold count_at, stats_at.
  rewrite walk_value_lookup_short by done.
  destruct (Z.gtb_spec depth max_depth); [lia | done].
Qed.

(** Walking a list of elements under one child path adds one observation
    per element to that path. *)
Lemma count_at_foldl_walk elems :
  ∀ stats child depth max_depth K L A,
    child ≠ "" → depth ≤ max_depth →
    count_at
      (foldl (λ s e, walk_value s child e depth max_depth K L A) stats elems)
      child
    = count_at stats child + Z.of_nat (length elems).
Proof.
  induction elems as [| e elems IH]; intros stats child depth max_depth K L A Hc Hd;
    simpl; [lia|].
  rewrite IH, count_at_walk_value_own by done. lia.
Qed.

(** The walk of an array node below the depth bound. *)
Lemma walk_value_array stats path elems depth max_depth K L A :
  depth < max_depth →
  walk_value stats path (JArray elems) depth max_depth K L A
  = foldl (λ s e, walk_value s (path +:+ "[]") e (depth + 1) max_depth K L A)
      (update_field_stats stats path (JArray elems) K L)
      (take (Z.to_nat A) elems).
Proof.
  intros Hd. rewrite walk_value_within by lia. simpl.
  destruct (Z.eqb_spec depth max_depth); [lia|].
  rewrite walk_elems_take by lia.
  by rewrite array_child_path_app, Z.sub_0_r.
Qed.

Lemma count_at_walk_value_array stats path elems depth max_depth K L A :
  depth < max_depth →
  count_at (walk_value stats path (JArray elems) depth max_depth K L A)
    (path +:+ "[]")
  = count_at stats (path +:+ "[]")
    + Z.of_nat (length (take (Z.to_nat A) elems)).
Proof.
  intros Hd. rewrite walk_value_array by done.
  destruct (array_child_path_longer path) as [Hne Hlen].
  rewrite array_child_path_app in Hne, Hlen.
  rewrite count_at_foldl_walk by (done || lia).
  rewrite count_at_update_ne; [done|].
  intros Heq. rewrite Heq in Hlen. lia.
Qed.

(** ** C6: the elements of an array share one child path *)

(** C6, as stated, fails when [max_array_items] is below the length of
    the array: with [max_array_items = 2] the count of ["a[]"] is 2. *)
Lemma array_collapse_claim_fails_small_fan_out :
  count_at (walk_record ∅ record_a123 1 5 200 2) "a[]" = 2
  ∧ ¬ array_collapse_claim 1 5 200 2.
Proof.
  split; [by vm_compute|].
  intros Hclaim. destruct Hclaim as [_ Hcount]; [lia|].
  vm_compute in Hcount. discriminate.
Qed.

(** C6 (amended). An array node walked below the depth bound hands every
    element it traverses to [walk_value] under the one child path
    [path + "[]"], whatever the index of the element. In particular the
    record [{"a": [1, 2, 3]}] walked with [max_depth >= 1] and
    [max_array_items >= 3] yields the paths ["a"] and ["a[]"] only, and the
    count of ["a[]"] is 3. *)
Theorem array_path_collapsing :
  (∀ stats path elems depth max_depth K L A,
     depth < max_depth →
     array_child_path path = path +:+ "[]"
     ∧ walk_value stats path (JArray elems) depth max_depth K L A
       = foldl (λ s e, walk_value s (path +:+ "[]") e (depth + 1) max_depth K L A)
           (update_field_stats stats path (JArray elems) K L)
           (take (Z.to_nat A) elems))
  ∧ (∀ max_depth K L A,
       1 ≤ max_depth → 3 ≤ A →
       let stats := walk_record ∅ record_a123 max_depth K L A in
       dom stats = ({[ "a"; "a[]" ]} : gset string)
       ∧ count_at stats "a[]" = 3
       ∧ count_at stats "a" = 1).
Proof.
  split.
  - intros stats path elems depth max_depth K L A Hd.
    split; [apply array_child_path_app | by apply walk_value_array].
  - intros max_depth K L A Hd HA. cbv zeta.
    unfold record_a123. cbn [walk_record].
    rewrite walk_value_array by lia.
    rewrite take_ge by (simpl; lia).
    cbn [foldl].
    rewrite !(walk_value_within _ _ (JNumber _)) by lia.
    cbn [walk_children].
    split; [|split].
    + rewrite !update_field_stats_dom, dom_empty_L.
      apply set_eq. intros x.
      rewrite !elem_of_union, !elem_of_singleton, elem_of_empty. tauto.
    + rewrite !count_at_update, count_at_update_ne by done. done.
    + rewrite !(count_at_update_ne _ "a[]" _ _ _ "a") by done.
      by rewrite count_at_update.
Qed.

Lemma array_path_collapsing_witness :
  count_at (walk_record ∅ record_a123 3 5 200 5) "a[]" = 3.
Proof.
  apply (proj2 array_path_collapsing 3 5 200 5); lia.
Defined.

(** ** C7: at most [max_array_items] elements of an array are walked *)

(** C7, as stated, fails for a negative [max_array_items]: no element is
    walked, which is not [min(1, -1)] elements. *)
Lemma fan_out_claim_fails_negative_bound :
  count_at (walk_value ∅ "a" (JArray [JNull]) 0 1 5 200 (-1)) "a[]" = 0
  ∧ ¬ fan_out_claim ∅ "a" [JNull] 0 1 5 200 (-1).
Proof.
  split; [by vm_compute|].
  intros Hclaim. specialize (Hclaim ltac:(lia)).
  vm_compute in Hclaim. discriminate.
Qed.

(** C7 (amended). An array node walked at [depth < max_depth] walks the
    first [min(length, max(max_array_items, 0))] of its elements, in
    order, under the child path, each of them adds exactly one observation
    to the child path, and the elements from index [max_array_items] on
    are not walked at all. With [max_array_items = 2] and five elements
    exactly two observations are added. *)
Theorem walk_value_array_fan_out stats path elems depth max_depth K L A :
  depth < max_depth →
  let child := path +:+ "[]" in
  let traversed := take (Z.to_nat A) elems in
  let stats' := walk_value stats path (JArray elems) depth max_depth K L A in
  stats'
  = foldl (λ s e, walk_value s child e (depth + 1) max_depth K L A)
      (update_field_stats stats path (JArray elems) K L) traversed
  ∧ count_at stats' child = count_at stats child + Z.of_nat (length traversed)
  ∧ Z.of_nat (length traversed) = Z.min (Z.of_nat (length elems)) (Z.max A 0)
  ∧ (A = 2 → length elems = 5%nat →
     count_at stats' child = count_at stats child + 2).
Proof.
  intros Hd. cbv zeta.
  split; [by apply walk_value_array|].
  split; [by apply count_at_walk_value_array|].
  split; [rewrite length_take; lia|].
  intros -> Hlen. rewrite count_at_walk_value_array by done.
  rewrite length_take, Hlen. simpl. lia.
Qed.

Lemma walk_value_array_fan_out_witness :
  count_at
    (walk_value ∅ "a" (JArray [JNull; JNull; JNull; JNull; JNull]) 0 3 5 200 2)
    "a[]"
  = count_at ∅ "a[]" + 2.
Proof.
  apply (walk_value_array_fan_out
           ∅ "a" [JNull; JNull; JNull; JNull; JNull] 0 3 5 200 2);
    [lia | reflexivity | reflexivity].
Defined.

(** ** C5: counts, type tallies and coverage agree *)

Lemma sum_values_insert_fresh c key v :
  c !! key = None → sum_values (<[key := v]> c) = v + sum_values c.
Proof.
  intros Hfresh. unfold sum_values.
  apply (map_fold_insert_L (λ _ v acc, v + acc)); [|done].
  intros; lia.
Qed.

Lemma sum_values_increment c key :
  sum_values (<[key := counter_get c key + 1]> c) = sum_values c + 1.
Proof.
  unfold counter_get.
  destruct (c !! key) as [x|] eqn:Hkey; simpl.
  - rewrite <- (insert_delete_eq c key (x + 1)).
    rewrite sum_values_insert_fresh by apply lookup_delete_eq.
    rewrite <- (insert_id c key x Hkey) at 2.
    rewrite <- (insert_delete_eq c key x).
    rewrite sum_values_insert_fresh by apply lookup_delete_eq.
    lia.
  - rewrite sum_values_insert_fresh by done. lia.
Qed.

Lemma count_ok_new : count_ok new_field_stats.
Proof. unfold count_ok, sum_values. simpl. by rewrite map_fold_empty. Qed.

Lemma count_ok_observe st value K L :
  count_ok st → count_ok (observe st value K L).
Proof.
  unfold count_ok. intros Hst. simpl.
  rewrite sum_values_increment. lia.
Qed.

Lemma count_ok_stats_at stats path :
  map_Forall (λ _ st, count_ok st) stats → count_ok (stats_at stats path).
Proof.
  intros Hstats. unfold stats_at.
  destruct (stats !! path) as [st|] eqn:Hst; simpl.
  - by apply (Hstats path).
  - apply count_ok_new.
Qed.

Lemma count_ok_update stats path value K L :
  map_Forall (λ _ st, count_ok st) stats →
  map_Forall (λ _ st, count_ok st) (update_field_stats stats path value K L).
Proof.
  intros Hstats. rewrite update_field_stats_insert.
  apply map_Forall_insert_2; [|done].
  by apply count_ok_observe, count_ok_stats_at.
Qed.

(** Whatever every observation preserves, the loop over the records
    preserves. *)
Lemma profile_records_preserves (P : gmap string field_stat → Prop) K L :
  (∀ stats path value, P stats → P (update_field_stats stats path value K L)) →
  ∀ records random drawn field_stats total seen sample_rate max_depth A,
    P field_stats →
    P (profile_records records random drawn field_stats total seen K L
         sample_rate max_depth A).1.1.
Proof.
  intros Hupd records.
  induction records as [| record records IH];
    intros random drawn field_stats total seen sample_rate max_depth A HP;
    [done|].
  destruct record as [| b | n | s | elems | items]; simpl; try by apply IH.
  destruct (float_lt sample_rate 1); simpl.
  - destruct (float_lt sample_rate (random drawn)); apply IH; [done|].
    by apply walk_record_preserves.
  - apply IH. by apply walk_record_preserves.
Qed.

(** C5. In the result of [profile_root], whatever the records, the draws
    and the options are, every reported path has [count] equal to the sum
    of the values of its [types], and its [coverage] is the quotient
    [count / total_records] when [total_records > 0] and 0 when
    [total_records] is 0. *)
Theorem profile_root_count_coverage records random K L sample_rate max_depth A
    path rep :
  let result := profile_root records random K L sample_rate max_depth A in
  p_keys result !! path = Some rep →
  fr_count rep = sum_values (fr_types rep)
  ∧ (p_total_records result > 0 →
     fr_coverage rep
     = (inject_Z (fr_count rep) / inject_Z (p_total_records result))%Q)
  ∧ (p_total_records result = 0 → fr_coverage rep = 0%Q).
Proof.
  cbv zeta. unfold profile_root.
  pose proof (profile_records_preserves
                (map_Forall (λ _ st, count_ok st)) K L
                (λ s p v, count_ok_update s p v K L)
                records random 0%nat ∅ 0 0 sample_rate max_depth A
                (map_Forall_empty _)) as Hinv.
  destruct (profile_records records random 0 ∅ 0 0 K L sample_rate max_depth A)
    as [[field_stats total] seen].
  simpl in *. intros Hrep.
  apply lookup_fmap_Some in Hrep as (st & <- & Hst).
  split; [exact (Hinv path st Hst)|].
  unfold finalize_field. simpl. split.
  - intros Hpos. by destruct (Z.gtb_spec total 0); [|lia].
  - intros ->. done.
Qed.

Lemma profile_root_count_coverage_witness :
  let result :=
    profile_root [JObject [("x", JString "hi")];
                  JObject [("x", JString "hello world"); ("y", JNumber (Int 1))]]
      (λ _, 0%Q) 5 200 1%Q 3 5 in
  ∃ rep,
    p_keys result !! "y" = Some rep
    ∧ fr_count rep = sum_values (fr_types rep)
    ∧ fr_coverage rep = (inject_Z 1 / inject_Z 2)%Q.
Proof.
  cbv zeta.
  eexists. split; [vm_compute; reflexivity|].
  match goal with
  | |- fr_count ?r = _ ∧ _ =>
      destruct (profile_root_count_coverage
                  [JObject [("x", JString "hi")];
                   JObject [("x", JString "hello world"); ("y", JNumber (Int 1))]]
                  (λ _, 0%Q) 5 200 1%Q 3 5 "y" r) as (Hc & Hcov & _)
  end.
  - vm_compute. reflexivity.
  - split; [exact Hc|]. apply Hcov. vm_compute. reflexivity.
Defined.

(** ** C2: sampling at the two extreme rates *)

(** With [sample_rate = 1.0] no draw is made and every record is kept. *)
Lemma profile_records_rate_one records :
  ∀ random drawn field_stats total seen K L max_depth A,
    let r := profile_records records random drawn field_stats total seen K L
               1%Q max_depth A in
    r.1.2 - total = r.2 - seen.
Proof.
  induction records as [| record records IH];
    intros random drawn field_stats total seen K L max_depth A; cbv zeta.
  - simpl. lia.
  - destruct record as [| b | n | s | elems | items]; simpl; try apply IH.
    change (float_lt 1 1) with false. simpl.
    pose proof (IH random drawn
                  (walk_record field_stats items max_depth K L A)
                  (total + 1) (seen + 1) K L max_depth A) as Hrest.
    cbv zeta in Hrest. lia.
Qed.

Lemma profile_root_rate_one records random K L max_depth A :
  let result := profile_root records random K L 1%Q max_depth A in
  p_total_records result = p_total_records_seen result.
Proof.
  cbv zeta. unfold profile_root.
  pose proof (profile_records_rate_one records random 0%nat ∅ 0 0 K L max_depth A)
    as Hr.
  destruct (profile_records records random 0 ∅ 0 0 K L 1 max_depth A)
    as [[field_stats total] seen].
  simpl in *. lia.
Qed.

(** With [sample_rate = 0.0] a record is skipped when its draw is above
    0; when every draw is, nothing is kept and nothing is walked. *)
Lemma profile_records_rate_zero records :
  ∀ random drawn field_stats total seen K L max_depth A,
    (∀ i, (0 < random i)%Q) →
    let r := profile_records records random drawn field_stats total seen K L
               0%Q max_depth A in
    r.1.1 = field_stats ∧ r.1.2 = total.
Proof.
  induction records as [| record records IH];
    intros random drawn field_stats total seen K L max_depth A Hpos; cbv zeta;
    [done|].
  destruct record as [| b | n | s | elems | items]; simpl; try by apply IH.
  change (float_lt 0 1) with true. simpl.
  assert (Hskip : float_lt 0 (random drawn) = true).
  { unfold float_lt. apply negb_true_iff.
    destruct (Qle_bool (random drawn) 0) eqn:Hle; [|done].
    apply Qle_bool_iff in Hle. specialize (Hpos drawn).
    exfalso. by apply (Qlt_not_le _ _ Hpos). }
  rewrite Hskip. by apply IH.
Qed.

Lemma profile_root_rate_zero records random K L max_depth A :
  (∀ i, (0 < random i)%Q) →
  let result := profile_root records random K L 0%Q max_depth A in
  p_total_records result = 0 ∧ p_keys result = ∅.
Proof.
  intros Hpos. cbv zeta. unfold profile_root.
  pose proof (profile_records_rate_zero records random 0%nat ∅ 0 0 K L
                max_depth A Hpos) as Hr.
  destruct (profile_records records random 0 ∅ 0 0 K L 0 max_depth A)
    as [[field_stats total] seen].
  simpl in *. destruct Hr as [-> ->].
  split; [done | apply fmap_empty].
Qed.

(** C2, at the failing input. [random.random()] returns a double in
    [[0.0, 1.0)], so a draw can be 0.0; the test [random.random() >
    sample_rate] does not skip such a record when [sample_rate = 0.0]: the
    record is counted in [total_records] and walked, and its paths have
    coverage 1. *)
Theorem profile_root_rate_zero_keeps_zero_draw :
  let result :=
    profile_root [JObject [("x", JNumber (Int 1))]] (λ _, 0%Q) 5 200 0%Q 3 5 in
  p_total_records result = 1
  ∧ p_total_records_seen result = 1
  ∧ fr_coverage <$> p_keys result !! "x" = Some (1 # 1)%Q.
Proof. cbv zeta. split; [|split]; by vm_compute. Qed.

(** ** C10: the string length statistics stay consistent *)

Lemma sls_inv_ok sls : sls_inv sls → sls_ok sls.
Proof.
  unfold sls_inv, sls_ok.
  destruct (sls_min sls) as [mn|], (sls_max sls) as [mx|]; try done.
  - intros (Hc & Hle & Hsum). split; [done|]. split.
    + split; [done | lia].
    + intros _. by exists mn, mx.
  - intros [Hc Hs]. split; [done|]. split; [done|]. lia.
Qed.

Lemma sls_inv_new : sls_inv (string_length_stats new_field_stats).
Proof. done. Qed.

Lemma sls_inv_observe_length sls l :
  sls_inv sls → sls_inv (observe_length sls l).
Proof.
  unfold sls_inv, observe_length. simpl.
  destruct (sls_min sls) as [mn|], (sls_max sls) as [mx|]; try done.
  - intros (Hc & Hle & Hlo & Hhi).
    destruct (Z.ltb_spec l mn), (Z.gtb_spec l mx); nia.
  - intros [-> ->]. lia.
Qed.

Lemma sls_inv_observe st value K L :
  sls_inv (string_length_stats st) →
  sls_inv (string_length_stats (observe st value K L)).
Proof.
  intros Hst. destruct value; simpl; try done.
  by apply sls_inv_observe_length.
Qed.

Lemma sls_inv_update stats path value K L :
  map_Forall (λ _ st, sls_inv (string_length_stats st)) stats →
  map_Forall (λ _ st, sls_inv (string_length_stats st))
    (update_field_stats stats path value K L).
Proof.
  intros Hstats. rewrite update_field_stats_insert.
  apply map_Forall_insert_2; [|done].
  apply sls_inv_observe. unfold stats_at.
  destruct (stats !! path) as [st|] eqn:Hst; simpl.
  - by apply (Hstats path).
  - apply sls_inv_new.
Qed.

Lemma reachable_sls_inv stats :
  reachable stats →
  map_Forall (λ _ st, sls_inv (string_length_stats st)) stats.
Proof.
  induction 1 as [| stats path value K L _ IH].
  - apply map_Forall_empty.
  - by apply sls_inv_update.
Qed.

(** The walk and the loop over the records build reachable stores. *)
Lemma walk_value_reachable stats path value depth max_depth K L A :
  reachable stats → reachable (walk_value stats path value depth max_depth K L A).
Proof.
  apply (walk_value_preserves reachable K L).
  intros s p v Hs. by apply reachable_update.
Qed.

Lemma profile_records_reachable records random K L sample_rate max_depth A :
  reachable
    (profile_records records random 0%nat ∅ 0 0 K L sample_rate max_depth A).1.1.
Proof.
  apply (profile_records_preserves reachable K L).
  - intros s p v Hs. by apply reachable_update.
  - apply reachable_empty.
Qed.

(** C10. In every store that the profiler can build, the accumulator
    that [ensure_field_stats] creates or finds and every accumulator after
    [update_field_stats] satisfy the predicate on [string_length_stats],
    and an observation of a value that is not a string leaves the
    [string_length_stats] of the path as they were (the initial ones for
    a new path): [min], [max], [sum] and [count] are all unchanged; the
    other paths are not touched either way. *)
Theorem update_field_stats_length_stats stats path value K L :
  reachable stats →
  let stats' := update_field_stats stats path value K L in
  sls_ok (string_length_stats (ensure_field_stats stats path).2)
  ∧ (∀ p st, (ensure_field_stats stats path).1 !! p = Some st →
       sls_ok (string_length_stats st))
  ∧ (∀ p st, stats' !! p = Some st → sls_ok (string_length_stats st))
  ∧ (type_name value ≠ "string" →
     string_length_stats (stats_at stats' path)
     = string_length_stats (stats_at stats path))
  ∧ (∀ p, p ≠ path → stats' !! p = stats !! p).
Proof.
  intros Hreach. cbv zeta.
  pose proof (reachable_sls_inv stats Hreach) as Hinv.
  assert (Hat : sls_inv (string_length_stats (stats_at stats path))).
  { unfold stats_at. destruct (stats !! path) as [st|] eqn:Hst; simpl.
    - by apply (Hinv path).
    - apply sls_inv_new. }
  split; [rewrite ensure_field_stats_snd; by apply sls_inv_ok|].
  split.
  { intros p st. unfold ensure_field_stats.
    destruct (stats !! path) as [st0|] eqn:Hst; simpl; intros Hp.
    - apply sls_inv_ok. by apply (Hinv p).
    - destruct (decide (p = path)) as [-> | Hne].
      + rewrite lookup_insert_eq in Hp. injection Hp as <-.
        apply sls_inv_ok, sls_inv_new.
      + rewrite lookup_insert_ne in Hp by done.
        apply sls_inv_ok. by apply (Hinv p). }
  split.
  { intros p st Hp. apply sls_inv_ok.
    by apply (sls_inv_update stats path value K L Hinv p). }
  split.
  - intros Hty. unfold stats_at at 1.
    rewrite update_field_stats_lookup. simpl.
    by destruct value.
  - intros p Hp. by apply update_field_stats_lookup_ne.
Qed.

Lemma update_field_stats_length_stats_witness :
  string_length_stats
    (stats_at
       (update_field_stats (update_field_stats ∅ "x" (JString "hi") 5 200)
          "x" (JNumber (Int 1)) 5 200) "x")
  = {| sls_min := Some 2; sls_max := Some 2; sls_sum := 2; sls_count := 1 |}.
Proof.
  destruct (update_field_stats_length_stats
              (update_field_stats ∅ "x" (JString "hi") 5 200)
              "x" (JNumber (Int 1)) 5 200) as (_ & _ & _ & Hsame & _).
  - apply reachable_update, reachable_empty.
  - rewrite Hsame by (simpl; discriminate). reflexivity.
Defined.

(** * Further properties of the profiler *)

(** ** Sampling *)

Lemma float_lt_true a b : float_lt a b = true ↔ (a < b)%Q.
Proof.
  unfold float_lt. rewrite negb_true_iff. split.
  - intros Hle. apply Qnot_le_lt. intros Hba.
    apply Qle_bool_iff in Hba. congruence.
  - intros Hlt. destruct (Qle_bool b a) eqn:Hle; [|done].
    apply Qle_bool_iff in Hle. exfalso. by apply (Qlt_not_le _ _ Hlt).
Qed.

Lemma float_lt_false a b : float_lt a b = false ↔ (b <= a)%Q.
Proof.
  unfold float_lt. rewrite negb_false_iff. apply Qle_bool_iff.
Qed.

(** The loop over the records is the walk of the kept records, and the
    two counters are the numbers of kept and of object records. *)
Lemma profile_records_kept records :
  ∀ random drawn field_stats total seen K L sample_rate max_depth A,
    profile_records records random drawn field_stats total seen K L
      sample_rate max_depth A
    = (foldl (λ s record, walk_record s record max_depth K L A) field_stats
         (kept_records records random drawn sample_rate),
       total + Z.of_nat (length (kept_records records random drawn sample_rate)),
       seen + Z.of_nat (length (object_records records))).
Proof.
  induction records as [| record records IH];
    intros random drawn field_stats total seen K L sample_rate max_depth A.
  - simpl. by rewrite !Z.add_0_r.
  - destruct record as [| b | n | s | elems | items]; simpl; try apply IH.
    destruct (float_lt sample_rate 1); simpl;
      [destruct (float_lt sample_rate (random drawn))|];
      rewrite IH; simpl;
      repeat match goal with |- (_, _) = (_, _) => f_equal end; lia.
Qed.

Lemma kept_records_sublist records :
  ∀ random drawn sample_rate,
    (length (kept_records records random drawn sample_rate)
     ≤ length (object_records records))%nat.
Proof.
  induction records as [| record records IH]; intros random drawn sample_rate;
    [done|].
  destruct record as [| b | n | s | elems | items]; simpl; try apply IH.
  destruct (float_lt sample_rate 1); simpl;
    [destruct (float_lt sample_rate (random drawn))|];
    simpl; specialize (IH random); try (specialize (IH (S drawn) sample_rate); lia);
    specialize (IH drawn sample_rate); lia.
Qed.

Lemma kept_records_full_rate records :
  ∀ random drawn sample_rate,
    (1 <= sample_rate)%Q →
    kept_records records random drawn sample_rate = object_records records.
Proof.
  induction records as [| record records IH]; intros random drawn sample_rate Hr;
    [done|].
  destruct record as [| b | n | s | elems | items]; simpl; try by apply IH.
  rewrite (proj2 (float_lt_false sample_rate 1) Hr). simpl.
  f_equal. by apply IH.
Qed.

Lemma kept_records_none records :
  ∀ random drawn sample_rate,
    (sample_rate < 1)%Q → (∀ i, (sample_rate < random i)%Q) →
    kept_records records random drawn sample_rate = [].
Proof.
  induction records as [| record records IH];
    intros random drawn sample_rate Hr Hdraws; [done|].
  destruct record as [| b | n | s | elems | items]; simpl; try by apply IH.
  rewrite (proj2 (float_lt_true sample_rate 1) Hr). simpl.
  rewrite (proj2 (float_lt_true sample_rate (random drawn)) (Hdraws drawn)).
  by apply IH.
Qed.

Lemma object_records_objects (kept : list (list (string * json))) :
  object_records (JObject <$> kept) = kept.
Proof.
  induction kept as [| record kept IH]; [done|].
  change (object_records (JObject <$> record :: kept))
    with (record :: object_records (JObject <$> kept)).
  by rewrite IH.
Qed.

Lemma profile_root_kept records random K L sample_rate max_depth A :
  let kept := kept_records records random 0 sample_rate in
  let result := profile_root records random K L sample_rate max_depth A in
  p_total_records result = Z.of_nat (length kept)
  ∧ p_total_records_seen result = Z.of_nat (length (object_records records))
  ∧ p_keys result
    = finalize_field (Z.of_nat (length kept))
      <$> foldl (λ s record, walk_record s record max_depth K L A) ∅ kept.
Proof.
  cbv zeta. unfold profile_root. rewrite profile_records_kept. simpl.
  by rewrite !Z.add_0_l.
Qed.

(** X1. With a sample rate of 1.0 or more no draw is consulted: every
    object record is kept, [total_records] equals [total_records_seen],
    which is the number of object records, and the whole result is the
    same for any two sequences of draws. *)
Theorem profile_root_full_rate records random random' K L sample_rate max_depth A :
  (1 <= sample_rate)%Q →
  let result := profile_root records random K L sample_rate max_depth A in
  p_total_records result = p_total_records_seen result
  ∧ p_total_records result = Z.of_nat (length (object_records records))
  ∧ result = profile_root records random' K L sample_rate max_depth A.
Proof.
  intros Hr. cbv zeta. unfold profile_root.
  rewrite !profile_records_kept, !kept_records_full_rate by done.
  simpl. split; [done|]. split; [lia | done].
Qed.

Lemma profile_root_full_rate_witness :
  p_total_records
    (profile_root [JObject [("x", JNull)]; JNull; JObject []] (λ _, 0%Q)
       5 200 (3 # 2)%Q 3 5)
  = 2.
Proof.
  destruct (profile_root_full_rate
              [JObject [("x", JNull)]; JNull; JObject []] (λ _, 0%Q) (λ _, 0%Q)
              5 200 (3 # 2)%Q 3 5) as (_ & Htotal & _).
  - by vm_compute.
  - exact Htotal.
Defined.

(** X2. When the sample rate is below 1.0 and every draw is above the
    rate, every record is skipped: [total_records] is 0 and no path is
    reported, while [total_records_seen] still counts the object
    records. *)
Theorem profile_root_all_skipped records random K L sample_rate max_depth A :
  (sample_rate < 1)%Q → (∀ i, (sample_rate < random i)%Q) →
  let result := profile_root records random K L sample_rate max_depth A in
  p_total_records result = 0
  ∧ p_keys result = ∅
  ∧ p_total_records_seen result = Z.of_nat (length (object_records records)).
Proof.
  intros Hr Hdraws. cbv zeta.
  destruct (profile_root_kept records random K L sample_rate max_depth A)
    as (Htotal & Hseen & Hkeys).
  rewrite kept_records_none in Htotal, Hkeys by done.
  split; [done|]. split; [|done].
  rewrite Hkeys. simpl. apply fmap_empty.
Qed.

Lemma profile_root_all_skipped_witness :
  p_keys (profile_root [JObject [("x", JNull)]] (λ _, (1 # 2)%Q) 5 200 0%Q 3 5)
  = ∅.
Proof.
  apply (profile_root_all_skipped
           [JObject [("x", JNull)]] (λ _, (1 # 2)%Q) 5 200 0%Q 3 5).
  - by vm_compute.
  - intros i. by vm_compute.
Defined.

(** X3. Whatever the rate and the draws are, [total_records_seen] is the
    number of object records of the corpus (the other values are not
    counted at all) and [0 <= total_records <= total_records_seen]. *)
Theorem profile_root_totals records random K L sample_rate max_depth A :
  let result := profile_root records random K L sample_rate max_depth A in
  p_total_records_seen result = Z.of_nat (length (object_records records))
  ∧ 0 ≤ p_total_records result ≤ p_total_records_seen result.
Proof.
  cbv zeta.
  destruct (profile_root_kept records random K L sample_rate max_depth A)
    as (Htotal & Hseen & _).
  rewrite Htotal, Hseen. split; [done|].
  pose proof (kept_records_sublist records random 0 sample_rate). lia.
Qed.

(** X4. Sampling only selects records: the reported paths and
    [total_records] of a sampled run are those of a run at rate 1.0 over
    the kept records alone, in their order. *)
Theorem profile_root_sampling_selects records random random' K L sample_rate
    max_depth A :
  let kept := JObject <$> kept_records records random 0 sample_rate in
  let sampled := profile_root records random K L sample_rate max_depth A in
  let full := profile_root kept random' K L 1%Q max_depth A in
  p_keys sampled = p_keys full
  ∧ p_total_records sampled = p_total_records full.
Proof.
  cbv zeta.
  destruct (profile_root_kept records random K L sample_rate max_depth A)
    as (Htotal & _ & Hkeys).
  destruct (profile_root_kept
              (JObject <$> kept_records records random 0 sample_rate)
              random' K L 1%Q max_depth A) as (Htotal' & _ & Hkeys').
  assert (Hkept : kept_records
                    (JObject <$> kept_records records random 0 sample_rate)
                    random' 0 1
                  = kept_records records random 0 sample_rate).
  { rewrite kept_records_full_rate; [apply object_records_objects|].
    apply Qle_refl. }
  rewrite Hkept in Htotal', Hkeys'.
  split; congruence.
Qed.

(** ** What every reported path satisfies *)

(** An observation that turns [J] into [I], for accumulators that hold
    [I] when they are stored and [J] when they are handed out. *)
Lemma entries_update (I J : field_stat → Prop) stats path value K L :
  J new_field_stats →
  (∀ st, I st → J st) →
  (∀ st, J st → I (observe st value K L)) →
  map_Forall (λ _, I) stats →
  map_Forall (λ _, I) (update_field_stats stats path value K L).
Proof.
  intros Hnew HIJ Hobs Hstats. rewrite update_field_stats_insert.
  apply map_Forall_insert_2; [|done].
  apply Hobs. unfold stats_at.
  destruct (stats !! path) as [st|] eqn:Hst; simpl; [|done].
  apply HIJ. by apply (Hstats path).
Qed.

(** An entry of the result is the finalized form of an accumulator that
    satisfies every invariant of the observations. *)
Lemma profile_root_entry (I : field_stat → Prop) K L :
  (∀ stats path value,
     map_Forall (λ _, I) stats →
     map_Forall (λ _, I) (update_field_stats stats path value K L)) →
  ∀ records random sample_rate max_depth A path rep,
    let result := profile_root records random K L sample_rate max_depth A in
    p_keys result !! path = Some rep →
    ∃ st, I st ∧ rep = finalize_field (p_total_records result) st.
Proof.
  intros Hupd records random sample_rate max_depth A path rep. cbv zeta.
  unfold profile_root.
  pose proof (profile_records_preserves (map_Forall (λ _, I)) K L Hupd
                records random 0%nat ∅ 0 0 sample_rate max_depth A
                (map_Forall_empty _)) as Hinv.
  destruct (profile_records records random 0 ∅ 0 0 K L sample_rate max_depth A)
    as [[field_stats total] seen].
  simpl in *. intros Hrep.
  apply lookup_fmap_Some in Hrep as (st & <- & Hst).
  exists st. split; [|done]. by apply (Hinv path).
Qed.

(** X5. Every reported path holds at most [max_examples_per_key]
    examples, and none at all when that option is 0 or negative. *)
Theorem profile_root_examples_bound records random K L sample_rate max_depth A
    path rep :
  p_keys (profile_root records random K L sample_rate max_depth A) !! path
  = Some rep →
  Z.of_nat (length (fr_examples rep)) ≤ Z.max K 0.
Proof.
  intros Hrep.
  set (I := λ st : field_stat, Z.of_nat (length (examples st)) ≤ Z.max K 0).
  assert (Hupd : ∀ stats p v,
             map_Forall (λ _, I) stats →
             map_Forall (λ _, I) (update_field_stats stats p v K L)).
  { intros stats p v. apply entries_update with (J := I);
      [unfold I; simpl; lia | done |].
    intros st Hlen. unfold I in *. simpl.
    destruct (Z.ltb_spec (Z.of_nat (length (examples st))) K); [|done].
    rewrite length_app. simpl. lia. }
  destruct (profile_root_entry I K L Hupd _ _ _ _ _ _ _ Hrep) as (st & Hst & ->).
  exact Hst.
Qed.

Lemma profile_root_examples_bound_witness :
  ∃ rep,
    p_keys (profile_root [JObject [("x", JNull)]; JObject [("x", JBool true)]]
              (λ _, 0%Q) 1 200 1%Q 3 5) !! "x" = Some rep
    ∧ Z.of_nat (length (fr_examples rep)) ≤ Z.max 1 0.
Proof.
  eexists. split; [by vm_compute|].
  apply (profile_root_examples_bound
           [JObject [("x", JNull)]; JObject [("x", JBool true)]]
           (λ _, 0%Q) 1 200 1%Q 3 5 "x").
  by vm_compute.
Defined.

(** The tallies of an accumulator: every tag is a result of [type_name]
    and every tally is at least 1. *)
Lemma types_inv_observe st value K L :
  map_Forall (λ tag n, tag ∈ type_tags ∧ 1 ≤ n) (types st) →
  map_Forall (λ tag n, tag ∈ type_tags ∧ 1 ≤ n) (types (observe st value K L)).
Proof.
  intros Htypes. simpl. apply map_Forall_insert_2; [|done]. split.
  - unfold type_tags. destruct value; simpl; set_unfold; tauto.
  - unfold counter_get.
    destruct (types st !! type_name value) as [n|] eqn:Hn; simpl; [|lia].
    destruct (Htypes _ _ Hn). lia.
Qed.

(** X6. In every reported path each key of [types] is one of the six
    tags of [type_name], each tally is at least 1, and [count] is at least
    1: a path is only reported once it has been observed. *)
Theorem profile_root_types_tags records random K L sample_rate max_depth A
    path rep :
  p_keys (profile_root records random K L sample_rate max_depth A) !! path
  = Some rep →
  (∀ tag n, fr_types rep !! tag = Some n → tag ∈ type_tags ∧ 1 ≤ n)
  ∧ 1 ≤ fr_count rep.
Proof.
  intros Hrep.
  set (T := λ st : field_stat,
         map_Forall (λ tag n, tag ∈ type_tags ∧ 1 ≤ n) (types st)).
  assert (Hupd : ∀ stats p v,
             map_Forall (λ _ st, T st ∧ 1 ≤ count st) stats →
             map_Forall (λ _ st, T st ∧ 1 ≤ count st)
               (update_field_stats stats p v K L)).
  { intros stats p v.
    apply entries_update with (J := λ st, T st ∧ 0 ≤ count st).
    - split; [apply map_Forall_empty | done].
    - intros st [Ht Hc]. split; [done | lia].
    - intros st [Ht Hc]. split; [by apply types_inv_observe | simpl; lia]. }
  destruct (profile_root_entry _ K L Hupd _ _ _ _ _ _ _ Hrep)
    as (st & [Htypes Hcount] & ->).
  split; [|done]. intros tag n Htag. by apply (Htypes tag n).
Qed.

Lemma profile_root_types_tags_witness :
  ∃ rep,
    p_keys (profile_root [JObject [("x", JNull)]; JObject [("x", JBool true)]]
              (λ _, 0%Q) 5 200 1%Q 3 5) !! "x" = Some rep
    ∧ 1 ≤ fr_count rep.
Proof.
  eexists. split; [by vm_compute|].
  apply (profile_root_types_tags
           [JObject [("x", JNull)]; JObject [("x", JBool true)]]
           (λ _, 0%Q) 5 200 1%Q 3 5 "x").
  by vm_compute.
Defined.

Lemma sum_values_nonneg (c : gmap string Z) :
  map_Forall (λ _ n, 0 ≤ n) c → 0 ≤ sum_values c.
Proof.
  induction c as [| key n c Hfresh IH] using map_ind; intros Hc.
  - unfold sum_values. by rewrite map_fold_empty.
  - rewrite sum_values_insert_fresh by done.
    apply map_Forall_insert in Hc as [Hn Hc]; [|done].
    specialize (IH Hc). lia.
Qed.

Lemma counter_get_le_sum (c : gmap string Z) key :
  map_Forall (λ _ n, 0 ≤ n) c → 0 ≤ counter_get c key ≤ sum_values c.
Proof.
  intros Hc. unfold counter_get.
  destruct (c !! key) as [n|] eqn:Hkey; simpl.
  - rewrite <- (insert_id c key n Hkey).
    rewrite <- (insert_delete_eq c key n).
    rewrite sum_values_insert_fresh by apply lookup_delete_eq.
    pose proof (sum_values_nonneg (delete key c)
                  (map_Forall_delete _ _ _ Hc)).
    pose proof (Hc key n Hkey). simpl in *. lia.
  - pose proof (sum_values_nonneg c Hc). lia.
Qed.

(** X7. In every reported path the [count] of [string_length_stats] is
    the tally of the tag ["string"] in [types] (0 when the tag is absent),
    and it is at most the [count] of the path. *)
Theorem profile_root_string_count records random K L sample_rate max_depth A
    path rep :
  p_keys (profile_root records random K L sample_rate max_depth A) !! path
  = Some rep →
  lr_count (fr_string_length_stats rep) = counter_get (fr_types rep) "string"
  ∧ 0 ≤ lr_count (fr_string_length_stats rep) ≤ fr_count rep.
Proof.
  intros Hrep.
  set (I := λ st : field_stat,
         sls_count (string_length_stats st) = counter_get (types st) "string"
         ∧ map_Forall (λ tag n, tag ∈ type_tags ∧ 1 ≤ n) (types st)
         ∧ count_ok st).
  assert (Hupd : ∀ stats p v,
             map_Forall (λ _, I) stats →
             map_Forall (λ _, I) (update_field_stats stats p v K L)).
  { intros stats p v. apply entries_update with (J := I); [|done|].
    - split; [done|]. split; [apply map_Forall_empty | apply count_ok_new].
    - intros st (Hs & Ht & Hc).
      split; [|split; [by apply types_inv_observe | by apply count_ok_observe]].
      simpl. unfold counter_get in *.
      destruct v; simpl;
        rewrite ?lookup_insert_eq, ?lookup_insert_ne by done; simpl; lia. }
  destruct (profile_root_entry I K L Hupd _ _ _ _ _ _ _ Hrep)
    as (st & (Hs & Ht & Hc) & ->).
  simpl. split; [done|].
  rewrite Hs, Hc. apply counter_get_le_sum.
  intros tag n Htag. destruct (Ht tag n Htag). simpl. lia.
Qed.

Lemma profile_root_string_count_witness :
  ∃ rep,
    p_keys (profile_root [JObject [("x", JString "hi")]; JObject [("x", JNull)]]
              (λ _, 0%Q) 5 200 1%Q 3 5) !! "x" = Some rep
    ∧ lr_count (fr_string_length_stats rep) = counter_get (fr_types rep) "string".
Proof.
  eexists. split; [by vm_compute|].
  apply (profile_root_string_count
           [JObject [("x", JString "hi")]; JObject [("x", JNull)]]
           (λ _, 0%Q) 5 200 1%Q 3 5 "x").
  by vm_compute.
Defined.

(** X8. In every reported path the average string length is absent
    exactly when no string was observed, and when it is present so are
    [min] and [max], with [min <= avg <= max]. *)
Theorem profile_root_avg_between records random K L sample_rate max_depth A
    path rep :
  p_keys (profile_root records random K L sample_rate max_depth A) !! path
  = Some rep →
  let lr := fr_string_length_stats rep in
  (lr_avg lr = None ↔ lr_count lr = 0)
  ∧ (∀ avg, lr_avg lr = Some avg →
       ∃ mn mx, lr_min lr = Some mn ∧ lr_max lr = Some mx
                ∧ (inject_Z mn <= avg)%Q ∧ (avg <= inject_Z mx)%Q).
Proof.
  intros Hrep. cbv zeta.
  destruct (profile_root_entry (λ st, sls_inv (string_length_stats st)) K L
              (λ s p v, sls_inv_update s p v K L) _ _ _ _ _ _ _ Hrep)
    as (st & Hst & ->).
  unfold finalize_field. simpl. unfold sls_inv in Hst.
  destruct (sls_min (string_length_stats st)) as [mn|],
           (sls_max (string_length_stats st)) as [mx|]; try done.
  - destruct Hst as (Hc & Hle & Hlo & Hhi).
    destruct (Z.gtb_spec (sls_count (string_length_stats st)) 0); [|lia].
    split; [split; [done | lia]|].
    intros avg [= <-]. exists mn, mx. split; [done|]. split; [done|].
    assert (Hpos : (0 < inject_Z (sls_count (string_length_stats st)))%Q).
    { change 0%Q with (inject_Z 0). by rewrite <- Zlt_Qlt. }
    split.
    + apply Qle_shift_div_l; [done|].
      by rewrite <- inject_Z_mult, <- Zle_Qle.
    + apply Qle_shift_div_r; [done|].
      by rewrite <- inject_Z_mult, <- Zle_Qle.
  - destruct Hst as [Hc Hs]. rewrite Hc. simpl. split; [done|]. by intros avg.
Qed.

Lemma profile_root_avg_between_witness :
  ∃ rep,
    p_keys (profile_root [JObject [("x", JString "hi")];
                          JObject [("x", JString "hello world")]]
              (λ _, 0%Q) 5 200 1%Q 3 5) !! "x" = Some rep
    ∧ (lr_avg (fr_string_length_stats rep) = None
       ↔ lr_count (fr_string_length_stats rep) = 0).
Proof.
  eexists. split; [by vm_compute|].
  apply (profile_root_avg_between
           [JObject [("x", JString "hi")]; JObject [("x", JString "hello world")]]
           (λ _, 0%Q) 5 200 1%Q 3 5 "x").
  by vm_compute.
Defined.

Lemma summarize_value_shape_only v L : shape_only (summarize_value v L).
Proof.
  destruct v as [| b | n | s | elems | items]; simpl; try done.
  - by destruct (len s <=? L).
  - by eexists _, _.
  - by eexists _, _.
Qed.

(** X9. No reported example is a raw array or a raw object: every
    example is the summary of an observed value, so it is a scalar, a
    string, or a marker object that begins with its ["__kind__"]. *)
Theorem profile_root_examples_shape records random K L sample_rate max_depth A
    path rep example :
  p_keys (profile_root records random K L sample_rate max_depth A) !! path
  = Some rep →
  example ∈ fr_examples rep →
  shape_only example ∧ ∃ v, example = summarize_value v L.
Proof.
  intros Hrep Hex.
  set (I := λ st : field_stat,
         Forall (λ ex, shape_only ex ∧ ∃ v, ex = summarize_value v L)
           (examples st)).
  assert (Hupd : ∀ stats p v,
             map_Forall (λ _, I) stats →
             map_Forall (λ _, I) (update_field_stats stats p v K L)).
  { intros stats p v. apply entries_update with (J := I); [|done|].
    - by apply Forall_nil.
    - intros st Hst. unfold I in *. simpl.
      destruct (Z.of_nat (length (examples st)) <? K); [|done].
      apply Forall_app. split; [done|].
      apply Forall_singleton. split; [apply summarize_value_shape_only|].
      by exists v. }
  destruct (profile_root_entry I K L Hupd _ _ _ _ _ _ _ Hrep) as (st & Hst & ->).
  simpl in Hex. unfold I in Hst. rewrite Forall_forall in Hst.
  by apply Hst.
Qed.

Lemma profile_root_examples_shape_witness :
  shape_only
    (JObject [("__kind__", JString "array"); ("len", JNumber (Int 1));
              ("sample_type", JString "null")]).
Proof.
  apply (profile_root_examples_shape
           [JObject [("x", JArray [JNull])]] (λ _, 0%Q) 5 200 1%Q 3 5 "x"
           (finalize_field 1
              (observe new_field_stats (JArray [JNull]) 5 200))).
  - by vm_compute.
  - simpl. apply elem_of_cons. by left.
Defined.

(** ** What a walk changes and what it leaves alone *)

Lemma string_app_nil_r (s : string) : s +:+ "" = s.
Proof.
  induction s as [| c s IH]; [done|].
  change (String c (s +:+ "") = String c s). by rewrite IH.
Qed.

Lemma string_app_assoc (a b c : string) : (a +:+ b) +:+ c = a +:+ (b +:+ c).
Proof.
  induction a as [| x a IH]; [done|].
  change (String x ((a +:+ b) +:+ c) = String x (a +:+ (b +:+ c))).
  by rewrite IH.
Qed.

Lemma path_extends_refl p : path_extends p p.
Proof. exists EmptyString. by rewrite string_app_nil_r. Qed.

Lemma path_extends_trans p q r :
  path_extends p q → path_extends q r → path_extends p r.
Proof.
  intros [x ->] [y ->]. exists (x +:+ y). apply string_app_assoc.
Qed.

Lemma path_extends_object_child path k :
  path_extends path (object_child_path path k).
Proof.
  unfold object_child_path. destruct path as [| c path]; simpl.
  - by exists k.
  - by exists ("." +:+ k).
Qed.

Lemma path_extends_array_child path :
  path_extends path (array_child_path path).
Proof. rewrite array_child_path_app. by exists "[]". Qed.

Lemma walk_value_frame value :
  ∀ stats path depth max_depth K L A r,
    ¬ path_extends path r →
    walk_value stats path value depth max_depth K L A !! r = stats !! r.
Proof.
  induction value as [| b | n | s | elems IH | items IH] using json_nested_ind;
    intros stats path depth max_depth K L A r Hr;
    rewrite walk_value_unfold;
    (destruct (depth >? max_depth); [done|]);
    assert (Hupd : ∀ v, update_field_stats stats path v K L !! r = stats !! r)
      by (intros v; apply update_field_stats_lookup_ne; intros ->;
          apply Hr, path_extends_refl);
    simpl; try done.
  - destruct (depth =? max_depth); [done|].
    rewrite <- (Hupd (JArray elems)).
    generalize (update_field_stats stats path (JArray elems) K L).
    generalize 0.
    induction IH as [| e elems He _ IHelems]; intros i s; simpl; [done|].
    destruct (i >=? A); [done|].
    rewrite IHelems. apply He. intros Hext. apply Hr.
    by apply (path_extends_trans _ _ _ (path_extends_array_child path)).
  - destruct (depth =? max_depth); [done|].
    rewrite <- (Hupd (JObject items)).
    generalize (update_field_stats stats path (JObject items) K L).
    induction IH as [| [k v] items Hv _ IHitems]; intros s; simpl; [done|].
    rewrite IHitems. apply Hv. intros Hext. apply Hr.
    by apply (path_extends_trans _ _ _ (path_extends_object_child path k)).
Qed.

(** X10. A walk changes only paths below its own: the walk of a value at
    [path] leaves every entry whose path does not start with [path] as it
    was, and the walk of a record leaves every entry as it was whose path
    starts with none of the top-level keys of the record. *)
Theorem walk_changes_only_below stats max_depth K L A r :
  (∀ path value depth,
     ¬ path_extends path r →
     walk_value stats path value depth max_depth K L A !! r = stats !! r)
  ∧ (∀ record,
       (∀ k, k ∈ record.*1 → ¬ path_extends k r) →
       walk_record stats record max_depth K L A !! r = stats !! r).
Proof.
  split.
  - intros path value depth Hr. by apply walk_value_frame.
  - intros record. revert stats.
    induction record as [| [k v] record IH]; intros stats Hkeys; simpl; [done|].
    rewrite IH.
    + apply walk_value_frame, Hkeys. simpl. apply elem_of_cons. by left.
    + intros k' Hk'. apply Hkeys. simpl. apply elem_of_cons. by right.
Qed.

Lemma walk_changes_only_below_witness :
  walk_value {[ "b" := new_field_stats ]} "a" (JObject [("b", JNull)]) 0 3 5 200 5
    !! "b"
  = ({[ "b" := new_field_stats ]} : gmap string field_stat) !! "b".
Proof.
  apply (walk_changes_only_below {[ "b" := new_field_stats ]} 3 5 200 5 "b").
  intros [rest Hrest]. discriminate Hrest.
Defined.

Lemma store_grows_refl stats : store_grows stats stats.
Proof. intros p. split; [done|]. split; [lia | done]. Qed.

Lemma store_grows_trans s1 s2 s3 :
  store_grows s1 s2 → store_grows s2 s3 → store_grows s1 s3.
Proof.
  intros H12 H23 p.
  destruct (H12 p) as (Ha & Hb & Hc), (H23 p) as (Ha' & Hb' & Hc').
  split; [auto|]. split; [lia | by etrans].
Qed.

Lemma store_grows_update stats path value K L :
  store_grows stats (update_field_stats stats path value K L).
Proof.
  intros p. destruct (decide (p = path)) as [-> | Hp].
  - split; [intros _; by rewrite update_field_stats_lookup|].
    split; [rewrite count_at_update; lia|].
    unfold stats_at at 2. rewrite update_field_stats_lookup. simpl.
    destruct (Z.of_nat (length (examples (stats_at stats path))) <? K);
      [by apply prefix_app_r | done].
  - unfold count_at, stats_at.
    rewrite update_field_stats_lookup_ne by done.
    split; [done|]. split; [lia | done].
Qed.

(** X11. A walk only adds to the store: after the walk of a value or of
    a whole record every path that was there is still there, no count
    has gone down, and the examples of every path are the former ones,
    possibly followed by new ones. *)
Theorem walk_only_adds stats max_depth K L A :
  (∀ path value depth,
     store_grows stats (walk_value stats path value depth max_depth K L A))
  ∧ (∀ record, store_grows stats (walk_record stats record max_depth K L A)).
Proof.
  assert (Hupd : ∀ s p v, store_grows stats s →
                          store_grows stats (update_field_stats s p v K L)).
  { intros s p v Hs. apply (store_grows_trans _ _ _ Hs), store_grows_update. }
  split.
  - intros path value depth.
    apply (walk_value_preserves (store_grows stats) K L Hupd),
      store_grows_refl.
  - intros record.
    apply (walk_record_preserves (store_grows stats) K L Hupd),
      store_grows_refl.
Qed.

(** X12. Once a path holds [max_examples_per_key] examples or more, its
    examples are frozen: no walk of a value or of a record changes
    them. *)
Theorem walk_examples_frozen stats max_depth K L A p :
  K ≤ Z.of_nat (length (examples (stats_at stats p))) →
  (∀ path value depth,
     examples (stats_at (walk_value stats path value depth max_depth K L A) p)
     = examples (stats_at stats p))
  ∧ (∀ record,
       examples (stats_at (walk_record stats record max_depth K L A) p)
       = examples (stats_at stats p)).
Proof.
  intros Hfull.
  set (P := λ s : gmap string field_stat,
         examples (stats_at s p) = examples (stats_at stats p)).
  assert (Hupd : ∀ s q v, P s → P (update_field_stats s q v K L)).
  { intros s q v Hs. unfold P in *.
    destruct (decide (p = q)) as [<- | Hq].
    - unfold stats_at at 1. rewrite update_field_stats_lookup. simpl.
      rewrite Hs.
      by destruct (Z.ltb_spec (Z.of_nat (length (examples (stats_at stats p)))) K);
        [lia|].
    - unfold stats_at at 1. by rewrite update_field_stats_lookup_ne. }
  split.
  - intros path value depth. by apply (walk_value_preserves P K L Hupd).
  - intros record. by apply (walk_record_preserves P K L Hupd).
Qed.

Lemma walk_examples_frozen_witness :
  examples
    (stats_at
       (walk_value (update_field_stats ∅ "x" JNull 1 200) "x" (JBool true)
          0 3 1 200 5) "x")
  = [JNull].
Proof.
  destruct (walk_examples_frozen (update_field_stats ∅ "x" JNull 1 200)
              3 1 200 5 "x") as [Hvalue _].
  - by vm_compute.
  - by rewrite Hvalue.
Defined.

(** ** The bounds and the options *)

Lemma counts_le_refl stats : counts_le stats stats.
Proof. intros p. lia. Qed.

Lemma counts_le_trans s1 s2 s3 :
  counts_le s1 s2 → counts_le s2 s3 → counts_le s1 s3.
Proof. intros H12 H23 p. specialize (H12 p). specialize (H23 p). lia. Qed.

Lemma counts_le_update s s' path value K L K' L' :
  counts_le s s' →
  counts_le (update_field_stats s path value K L)
    (update_field_stats s' path value K' L').
Proof.
  intros Hs p. specialize (Hs p).
  destruct (decide (p = path)) as [-> | Hp].
  - rewrite !count_at_update. lia.
  - by rewrite !count_at_update_ne.
Qed.

Lemma counts_le_update_self s path value K L :
  counts_le s (update_field_stats s path value K L).
Proof. intros p. apply count_at_update_mono. Qed.

Lemma counts_le_walk_value s path value depth max_depth K L A :
  counts_le s (walk_value s path value depth max_depth K L A).
Proof.
  apply (walk_value_preserves (counts_le s) K L); [|apply counts_le_refl].
  intros s' p v Hs'. apply (counts_le_trans _ _ _ Hs'), counts_le_update_self.
Qed.

Lemma counts_le_walk_elems s child elems i depth max_depth K L A :
  counts_le s (walk_elems s child elems i depth max_depth K L A).
Proof.
  apply (walk_elems_preserves (counts_le s) K L); [|apply counts_le_refl].
  intros s' p v Hs'. apply (counts_le_trans _ _ _ Hs'), counts_le_update_self.
Qed.

Lemma counts_le_walk_items s path items depth max_depth K L A :
  counts_le s (walk_items s path items depth max_depth K L A).
Proof.
  apply (walk_items_preserves (counts_le s) K L); [|apply counts_le_refl].
  intros s' p v Hs'. apply (counts_le_trans _ _ _ Hs'), counts_le_update_self.
Qed.

Lemma walk_value_counts_mono value :
  ∀ s s' path depth max_depth max_depth' K L K' L' A A',
    max_depth ≤ max_depth' → A ≤ A' → counts_le s s' →
    counts_le (walk_value s path value depth max_depth K L A)
      (walk_value s' path value depth max_depth' K' L' A').
Proof.
  induction value as [| b | n | str | elems IH | items IH] using json_nested_ind;
    intros s s' path depth m m' K L K' L' A A' Hm HA Hs;
    rewrite (walk_value_unfold s);
    (destruct (Z.gtb_spec depth m) as [Hgt | Hle];
     [by apply (counts_le_trans _ _ _ Hs), counts_le_walk_value|]);
    rewrite (walk_value_within s') by lia;
    simpl; try by apply counts_le_update.
  - assert (Hupd := counts_le_update s s' path (JArray elems) K L K' L' Hs).
    revert Hupd.
    generalize (update_field_stats s path (JArray elems) K L).
    generalize (update_field_stats s' path (JArray elems) K' L').
    intros t' t Ht.
    destruct (Z.eqb_spec depth m) as [-> | Hne].
    { destruct (m =? m'); [done|].
      by apply (counts_le_trans _ _ _ Ht), counts_le_walk_elems. }
    destruct (Z.eqb_spec depth m') as [-> | Hne']; [lia|].
    revert t t' Ht. generalize 0.
    induction IH as [| e elems He _ IHelems]; intros i t t' Ht; simpl; [done|].
    destruct (Z.geb_spec i A) as [Hi | Hi].
    + apply (counts_le_trans _ _ _ Ht).
      apply (counts_le_walk_elems t' _ (e :: elems)).
    + destruct (Z.geb_spec i A') as [Hi' | Hi']; [lia|].
      apply IHelems. by apply He.
  - assert (Hupd := counts_le_update s s' path (JObject items) K L K' L' Hs).
    revert Hupd.
    generalize (update_field_stats s path (JObject items) K L).
    generalize (update_field_stats s' path (JObject items) K' L').
    intros t' t Ht.
    destruct (Z.eqb_spec depth m) as [-> | Hne].
    { destruct (m =? m'); [done|].
      by apply (counts_le_trans _ _ _ Ht), counts_le_walk_items. }
    destruct (Z.eqb_spec depth m') as [-> | Hne']; [lia|].
    revert t t' Ht.
    induction IH as [| [k v] items Hv _ IHitems]; intros t t' Ht; simpl; [done|].
    apply IHitems. by apply Hv.
Qed.

(** X13. Raising [max_depth] or [max_array_items] never lowers a count:
    for the same record and the same store, every path counts at least as
    many observations under the larger bounds, whatever the example
    options of the two runs are. *)
Theorem walk_record_counts_mono record :
  ∀ stats max_depth max_depth' K L K' L' A A' p,
    max_depth ≤ max_depth' → A ≤ A' →
    count_at (walk_record stats record max_depth K L A) p
    ≤ count_at (walk_record stats record max_depth' K' L' A') p.
Proof.
  intros stats m m' K L K' L' A A' p Hm HA.
  assert (Hgen : ∀ s s', counts_le s s' →
            counts_le (walk_record s record m K L A)
              (walk_record s' record m' K' L' A')).
  { induction record as [| [k v] record IH]; intros s s' Hs; simpl; [done|].
    apply IH. by apply walk_value_counts_mono. }
  apply Hgen, counts_le_refl.
Qed.

Lemma walk_record_counts_mono_witness :
  count_at (walk_record ∅ record_a123 0 5 200 2) "a[]"
  ≤ count_at (walk_record ∅ record_a123 1 5 200 3) "a[]".
Proof.
  apply (walk_record_counts_mono record_a123 ∅ 0 1 5 200 5 200 2 3 "a[]"); lia.
Defined.

Lemma erase_examples_observe st value K L :
  erase_examples (observe st value K L) = observe (erase_examples st) value 0 0.
Proof. done. Qed.

Lemma stats_at_erase_examples stats p :
  stats_at (erase_examples <$> stats) p = erase_examples (stats_at stats p).
Proof.
  unfold stats_at. rewrite lookup_fmap. by destruct (stats !! p).
Qed.

Lemma erase_examples_update stats path value K L :
  erase_examples <$> update_field_stats stats path value K L
  = update_field_stats (erase_examples <$> stats) path value 0 0.
Proof.
  by rewrite !update_field_stats_insert, fmap_insert, stats_at_erase_examples,
    erase_examples_observe.
Qed.

(** Forgetting the examples after a walk is walking the store without
    examples with room for none. *)
Lemma erase_examples_walk_value value :
  ∀ stats path depth max_depth K L A,
    erase_examples <$> walk_value stats path value depth max_depth K L A
    = walk_value (erase_examples <$> stats) path value depth max_depth 0 0 A.
Proof.
  induction value as [| b | n | s | elems IH | items IH] using json_nested_ind;
    intros stats path depth max_depth K L A;
    rewrite !walk_value_unfold;
    (destruct (depth >? max_depth); [done|]);
    cbn [walk_children]; try apply erase_examples_update.
  - destruct (depth =? max_depth); [apply erase_examples_update|].
    rewrite <- (erase_examples_update _ _ _ K L).
    assert (Hloop : ∀ i t,
              erase_examples
              <$> walk_elems t (array_child_path path) elems i depth max_depth
                    K L A
              = walk_elems (erase_examples <$> t) (array_child_path path)
                  elems i depth max_depth 0 0 A).
    { induction IH as [| e elems He _ IHelems]; intros i t; cbn [walk_elems];
        [done|].
      destruct (i >=? A); [done|]. by rewrite IHelems, He. }
    apply Hloop.
  - destruct (depth =? max_depth); [apply erase_examples_update|].
    rewrite <- (erase_examples_update _ _ _ K L).
    generalize (update_field_stats stats path (JObject items) K L).
    induction IH as [| [k v] items Hv _ IHitems]; intros t; cbn [walk_items];
      [done|].
    cbn [snd] in Hv. by rewrite IHitems, Hv.
Qed.

Lemma erase_examples_walk_record record :
  ∀ stats max_depth K L A,
    erase_examples <$> walk_record stats record max_depth K L A
    = walk_record (erase_examples <$> stats) record max_depth 0 0 A.
Proof.
  induction record as [| [k v] record IH]; intros stats max_depth K L A;
    simpl; [done|].
  by rewrite IH, erase_examples_walk_value.
Qed.

(** X14. The options [max_examples_per_key] and [max_string_example_len]
    bear on the examples only: two walks of the same record from the same
    store that differ in these options alone end with the same paths, and
    with the same count, type tallies and string length statistics for
    every path. *)
Theorem walk_record_example_options record stats max_depth K L K' L' A :
  erase_examples <$> walk_record stats record max_depth K L A
  = erase_examples <$> walk_record stats record max_depth K' L' A.
Proof. by rewrite !erase_examples_walk_record. Qed.

(** ** Every child of a walked node gets a path *)

Section dom_grows.
Variables K L : Z.
Variable p : string.

Lemma dom_update_mono stats path value :
  p ∈ dom stats → p ∈ dom (update_field_stats stats path value K L).
Proof.
  intros Hp. rewrite update_field_stats_dom. apply elem_of_union. by right.
Qed.

Lemma dom_walk_value_mono stats path value depth max_depth A :
  p ∈ dom stats → p ∈ dom (walk_value stats path value depth max_depth K L A).
Proof.
  apply (walk_value_preserves (λ s, p ∈ dom s) K L).
  intros s q v. apply dom_update_mono.
Qed.

Lemma dom_walk_children_mono stats path value depth max_depth A :
  p ∈ dom stats →
  p ∈ dom (walk_children stats path value depth max_depth K L A).
Proof.
  apply (walk_children_preserves (λ s, p ∈ dom s) K L).
  intros s q v. apply dom_update_mono.
Qed.

Lemma dom_walk_items_mono stats path items depth max_depth A :
  p ∈ dom stats → p ∈ dom (walk_items stats path items depth max_depth K L A).
Proof.
  apply (walk_items_preserves (λ s, p ∈ dom s) K L).
  intros s q v. apply dom_update_mono.
Qed.

Lemma dom_walk_elems_mono stats child elems i depth max_depth A :
  p ∈ dom stats →
  p ∈ dom (walk_elems stats child elems i depth max_depth K L A).
Proof.
  apply (walk_elems_preserves (λ s, p ∈ dom s) K L).
  intros s q v. apply dom_update_mono.
Qed.

Lemma dom_walk_record_mono stats record max_depth A :
  p ∈ dom stats → p ∈ dom (walk_record stats record max_depth K L A).
Proof.
  apply (walk_record_preserves (λ s, p ∈ dom s) K L).
  intros s q v. apply dom_update_mono.
Qed.
End dom_grows.

Lemma dom_walk_value_own stats path value depth max_depth K L A :
  depth ≤ max_depth →
  path ∈ dom (walk_value stats path value depth max_depth K L A).
Proof.
  intros Hd. rewrite walk_value_within by done.
  apply dom_walk_children_mono.
  rewrite update_field_stats_dom. apply elem_of_union. left.
  by apply elem_of_singleton.
Qed.

(** X15. Below the depth bound no child is passed over: after the walk
    of a record with [max_depth >= 0] every top-level key is a path of the
    store; after the walk of an object at [depth < max_depth] the child
    path of every key is; after the walk of a non-empty array at
    [depth < max_depth] with [max_array_items >= 1] the child path
    [path + "[]"] is. *)
Theorem walk_observes_children stats max_depth K L A :
  (∀ record k,
     0 ≤ max_depth → k ∈ record.*1 →
     k ∈ dom (walk_record stats record max_depth K L A))
  ∧ (∀ path items depth k,
       depth < max_depth → k ∈ items.*1 →
       object_child_path path k
       ∈ dom (walk_value stats path (JObject items) depth max_depth K L A))
  ∧ (∀ path elems depth,
       depth < max_depth → elems ≠ [] → 1 ≤ A →
       path +:+ "[]"
       ∈ dom (walk_value stats path (JArray elems) depth max_depth K L A)).
Proof.
  split; [|split].
  - intros record k Hd. revert stats.
    induction record as [| [k0 v0] record IH]; intros stats Hk; simpl in *.
    + by apply elem_of_nil in Hk.
    + apply elem_of_cons in Hk as [-> | Hk]; [|by apply IH].
      by apply dom_walk_record_mono, dom_walk_value_own.
  - intros path items depth k Hd Hk.
    rewrite walk_value_within by lia. simpl.
    destruct (Z.eqb_spec depth max_depth); [lia|].
    generalize (update_field_stats stats path (JObject items) K L).
    induction items as [| [k0 v0] items IH]; intros s; simpl in *.
    + by apply elem_of_nil in Hk.
    + apply elem_of_cons in Hk as [-> | Hk]; [|by apply IH].
      apply dom_walk_items_mono, dom_walk_value_own. lia.
  - intros path elems depth Hd Hne HA.
    rewrite walk_value_within by lia. simpl.
    destruct (Z.eqb_spec depth max_depth); [lia|].
    destruct elems as [| e elems]; [done|]. simpl.
    destruct (Z.geb_spec 0 A); [lia|].
    rewrite <- array_child_path_app.
    apply dom_walk_elems_mono, dom_walk_value_own. lia.
Qed.

Lemma walk_observes_children_witness :
  "a.b" ∈ dom (walk_value ∅ "a" (JObject [("b", JNull)]) 0 1 5 200 5).
Proof.
  apply (proj1 (proj2 (walk_observes_children ∅ 1 5 200 5))
           "a" [("b", JNull)] 0 "b"); [lia|].
  simpl. apply elem_of_cons. by left.
Defined.

(** ** The record source *)

Section record_source_properties.
Variable json_loads : string → load_result.
Variable splitlines : string → list string.
Variable strip : string → string.

Lemma jsonl_attempt_scan lines :
  ∀ records,
    jsonl_attempt json_loads strip lines records
    = jsonl_scan json_loads
        (filter (λ line, truthy line = true) (strip <$> lines)) records.
Proof.
  induction lines as [| line lines IH]; intros records; [done|].
  cbn [jsonl_attempt fmap list_fmap].
  destruct (truthy (strip line)) eqn:Hblank; cbn [negb].
  - rewrite filter_cons_True by done. cbn [jsonl_scan].
    destruct (json_loads (strip line)) as [obj| |]; try done.
    destruct (is_dict obj); [apply IH | done].
  - rewrite filter_cons_False by (by rewrite Hblank). apply IH.
Qed.

Lemma jsonl_scan_good good :
  ∀ rest records,
    Forall (λ line, parses_to_dict json_loads line = true) good →
    jsonl_scan json_loads (good ++ rest) records
    = jsonl_scan json_loads rest (records ++ omap (loaded_dict json_loads) good).
Proof.
  induction good as [| line good IH]; intros rest records Hgood.
  - simpl. by rewrite app_nil_r.
  - apply Forall_cons in Hgood as [Hline Hgood].
    cbn [app jsonl_scan omap list_omap].
    unfold parses_to_dict in Hline.
    destruct (json_loads line) as [obj| |] eqn:Hload; try done.
    assert (Hl : loaded_dict json_loads line = Some obj)
      by (unfold loaded_dict; by rewrite Hload, Hline).
    rewrite Hl, Hline, IH by done. by rewrite <- app_assoc.
Qed.

Lemma loaded_dicts good :
  Forall (λ line, parses_to_dict json_loads line = true) good →
  Forall (λ record, is_dict record = true) (omap (loaded_dict json_loads) good)
  ∧ length (omap (loaded_dict json_loads) good) = length good.
Proof.
  induction 1 as [| line good Hline _ [IHdict IHlen]]; [done|].
  cbn [omap list_omap]. unfold parses_to_dict in Hline.
  destruct (json_loads line) as [obj| |] eqn:Hload; try done.
  assert (Hl : loaded_dict json_loads line = Some obj)
    by (unfold loaded_dict; by rewrite Hload, Hline).
  rewrite Hl. split; [by apply Forall_cons | cbn [length]; by f_equal].
Qed.

Lemma whole_json_records_dicts path text :
  Forall (λ record, is_dict record = true)
    (yielded (whole_json_records json_loads path text)).
Proof.
  unfold whole_json_records.
  destruct (json_loads text) as [[| b | n | s | elems | items]| |]; simpl;
    try by apply Forall_nil.
  - apply Forall_forall. intros record Hrecord.
    by apply list_elem_of_filter in Hrecord as [Hdict _].
  - by apply Forall_singleton.
Qed.

(** The lines split at the first one that does not parse to an object. *)
Lemma first_bad_line (lines : list string) :
  Forall (λ line, parses_to_dict json_loads line = true) lines
  ∨ ∃ good bad rest,
      lines = good ++ bad :: rest
      ∧ Forall (λ line, parses_to_dict json_loads line = true) good
      ∧ parses_to_dict json_loads bad = false.
Proof.
  induction lines as [| line lines IH]; [by left|].
  destruct (parses_to_dict json_loads line) eqn:Hline.
  - destruct IH as [Hall | (good & bad & rest & -> & Hgood & Hbad)].
    + left. by apply Forall_cons.
    + right. exists (line :: good), bad, rest.
      split; [done|]. split; [by apply Forall_cons | done].
  - right. exists [], line, lines. split; [done|]. split; [by apply Forall_nil | done].
Qed.

Lemma iter_records_jsonl path text :
  let lines := nonblank_lines splitlines strip text in
  Forall (λ line, parses_to_dict json_loads line = true) lines → lines ≠ [] →
  iter_records_from_file json_loads splitlines strip path text
  = Finished (omap (loaded_dict json_loads) lines) [].
Proof.
  cbv zeta. unfold iter_records_from_file, nonblank_lines.
  rewrite jsonl_attempt_scan. set (lines := filter _ _). intros Hall Hne.
  rewrite <- (app_nil_r lines) at 1.
  rewrite jsonl_scan_good by done. cbn [jsonl_scan app andb].
  destruct (loaded_dicts lines Hall) as [_ Hlen].
  destruct (omap (loaded_dict json_loads) lines) as [| record records]; [|done].
  by destruct lines.
Qed.

Lemma iter_records_bad_line path text good bad rest :
  nonblank_lines splitlines strip text = good ++ bad :: rest →
  Forall (λ line, parses_to_dict json_loads line = true) good →
  parses_to_dict json_loads bad = false →
  iter_records_from_file json_loads splitlines strip path text
  = match json_loads bad with
    | OtherError => Raised
    | _ => whole_json_records json_loads path text
    end.
Proof.
  unfold iter_records_from_file, nonblank_lines.
  rewrite jsonl_attempt_scan. intros -> Hgood Hbad.
  rewrite jsonl_scan_good by done. cbn [jsonl_scan].
  unfold parses_to_dict in Hbad.
  destruct (json_loads bad) as [obj| |]; try done.
  by rewrite Hbad.
Qed.

Lemma iter_records_no_line path text :
  nonblank_lines splitlines strip text = [] →
  iter_records_from_file json_loads splitlines strip path text
  = whole_json_records json_loads path text.
Proof.
  unfold iter_records_from_file, nonblank_lines.
  rewrite jsonl_attempt_scan. by intros ->.
Qed.

Lemma iter_records_from_file_cases path text :
  (∃ lines,
     Forall (λ line, parses_to_dict json_loads line = true) lines
     ∧ iter_records_from_file json_loads splitlines strip path text
       = Finished (omap (loaded_dict json_loads) lines) [])
  ∨ iter_records_from_file json_loads splitlines strip path text
    = whole_json_records json_loads path text
  ∨ iter_records_from_file json_loads splitlines strip path text = Raised.
Proof.
  destruct (first_bad_line (nonblank_lines splitlines strip text))
    as [Hall | (good & bad & rest & Hlines & Hgood & Hbad)].
  - destruct (nonblank_lines splitlines strip text) as [| line lines] eqn:Hlines.
    + right. left. by apply iter_records_no_line.
    + left. exists (line :: lines). split; [done|].
      rewrite <- Hlines in *. by apply iter_records_jsonl; [|rewrite Hlines].
  - right. rewrite (iter_records_bad_line path text good bad rest) by done.
    destruct (json_loads bad); auto.
Qed.

(** X16. The JSONL reading of a file is all or nothing. When every
    stripped non-empty line parses to an object and there is at least one
    such line, the records are these objects, in the order of the lines,
    and nothing is written to the error stream. At the first line that
    does not parse to an object the records of the lines before it are
    dropped: if [json.loads] raised something other than
    [JSONDecodeError] there, the exception leaves the generator with
    nothing yielded; otherwise, and also when there is no line at all,
    the result is that of reading the whole text as one JSON document,
    which again raises when [json.loads] raises something else. *)
Theorem iter_records_jsonl_all_or_nothing path text :
  let lines := nonblank_lines splitlines strip text in
  let run := iter_records_from_file json_loads splitlines strip path text in
  (Forall (λ line, parses_to_dict json_loads line = true) lines → lines ≠ [] →
   run = Finished (omap (loaded_dict json_loads) lines) [])
  ∧ (∀ good bad rest,
       lines = good ++ bad :: rest →
       Forall (λ line, parses_to_dict json_loads line = true) good →
       json_loads bad = OtherError →
       run = Raised)
  ∧ (∀ good bad rest,
       lines = good ++ bad :: rest →
       Forall (λ line, parses_to_dict json_loads line = true) good →
       parses_to_dict json_loads bad = false →
       json_loads bad ≠ OtherError →
       run = whole_json_records json_loads path text)
  ∧ (lines = [] → run = whole_json_records json_loads path text)
  ∧ (json_loads text = OtherError →
     whole_json_records json_loads path text = Raised).
Proof.
  cbv zeta. split; [apply iter_records_jsonl|].
  split.
  { intros good bad rest Hlines Hgood Hbad.
    rewrite (iter_records_bad_line path text good bad rest) by
      (done || (unfold parses_to_dict; by rewrite Hbad)).
    by rewrite Hbad. }
  split.
  { intros good bad rest Hlines Hgood Hbad Hother.
    rewrite (iter_records_bad_line path text good bad rest) by done.
    by destruct (json_loads bad). }
  split; [apply iter_records_no_line|].
  intros Hother. unfold whole_json_records. by rewrite Hother.
Qed.

(** X17. Every record that a file yields is an object, whichever of the
    two readings produced it, so [profile_root] drops none of them:
    run over the records of one file, its [total_records_seen] is their
    number. *)
Theorem iter_records_yields_objects path text random K L sample_rate
    max_depth A :
  let records :=
    yielded (iter_records_from_file json_loads splitlines strip path text) in
  Forall (λ record, is_dict record = true) records
  ∧ p_total_records_seen
      (profile_root records random K L sample_rate max_depth A)
    = Z.of_nat (length records).
Proof.
  cbv zeta.
  assert (Hdicts : Forall (λ record, is_dict record = true)
            (yielded
               (iter_records_from_file json_loads splitlines strip path text))).
  { destruct (iter_records_from_file_cases path text)
      as [(lines & Hall & ->) | [-> | ->]];
      [|apply whole_json_records_dicts | by apply Forall_nil].
    by apply loaded_dicts. }
  split; [done|].
  destruct (profile_root_kept
              (yielded
                 (iter_records_from_file json_loads splitlines strip path text))
              random K L sample_rate max_depth A) as (_ & -> & _).
  f_equal. revert Hdicts.
  generalize
    (yielded (iter_records_from_file json_loads splitlines strip path text)).
  intros records Hdicts.
  induction Hdicts as [| record records Hdict _ IH]; [done|].
  destruct record; try done. simpl in *. unfold object_records in *.
  simpl. by rewrite IH.
Qed.

(** X18. A file writes at most one diagnostic, and only when it yields
    no record. *)
Theorem iter_records_diagnostics path text :
  let result := iter_records_from_file json_loads splitlines strip path text in
  (length (written result) ≤ 1)%nat
  ∧ (written result ≠ [] → yielded result = []).
Proof.
  cbv zeta.
  destruct (iter_records_from_file_cases path text)
    as [(lines & Hall & ->) | [-> | ->]];
    [simpl; split; [lia | done]| |simpl; split; [lia | done]].
  unfold whole_json_records.
  destruct (json_loads text) as [[| b | n | s | elems | items]| |]; simpl;
    split; (lia || done).
Qed.
End record_source_properties.

(** A [json.loads] that reads the empty object, rejects an integer
    literal that is too long, and fails to decode anything else. *)
Lemma iter_records_jsonl_all_or_nothing_witness :
  iter_records_from_file
    (λ s, if String.eqb s "{}" then Loaded (JObject [])
          else if String.eqb s "9" then OtherError else DecodeError)
    (λ s, [s]) (λ s, s) "f.jsonl" "9"
  = Raised.
Proof.
  apply (proj1 (proj2 (iter_records_jsonl_all_or_nothing
                         (λ s, if String.eqb s "{}" then Loaded (JObject [])
                               else if String.eqb s "9" then OtherError
                               else DecodeError)
                         (λ s, [s]) (λ s, s) "f.jsonl" "9")) [] "9" []);
    [reflexivity | by apply Forall_nil | reflexivity].
Defined.

(** ** Counts add up *)

(** Two stores whose counts differ by [delta] still differ by [delta]
    after the same walk. *)
Lemma walk_value_counts_shift (delta : string → Z) value :
  ∀ s s' path depth max_depth K L A,
    (∀ p, count_at s' p = count_at s p + delta p) →
    ∀ p, count_at (walk_value s' path value depth max_depth K L A) p
         = count_at (walk_value s path value depth max_depth K L A) p + delta p.
Proof.
  assert (Hupd : ∀ s s' path v K L,
            (∀ p, count_at s' p = count_at s p + delta p) →
            ∀ p, count_at (update_field_stats s' path v K L) p
                 = count_at (update_field_stats s path v K L) p + delta p).
  { intros s s' path v K L Hs p. specialize (Hs p).
    destruct (decide (p = path)) as [-> | Hp].
    - rewrite !count_at_update. lia.
    - by rewrite !count_at_update_ne. }
  induction value as [| b | n | str | elems IH | items IH] using json_nested_ind;
    intros s s' path depth max_depth K L A Hs;
    rewrite !walk_value_unfold;
    (destruct (depth >? max_depth); [done|]);
    cbn [walk_children]; try by apply Hupd.
  - destruct (depth =? max_depth); [by apply Hupd|].
    assert (Hloop : ∀ i t t',
              (∀ p, count_at t' p = count_at t p + delta p) →
              ∀ p, count_at (walk_elems t' (array_child_path path) elems i
                               depth max_depth K L A) p
                   = count_at (walk_elems t (array_child_path path) elems i
                                 depth max_depth K L A) p + delta p).
    { induction IH as [| e elems He _ IHelems]; intros i t t' Ht;
        cbn [walk_elems]; [done|].
      destruct (i >=? A); [done|]. by apply IHelems, He. }
    by apply Hloop, Hupd.
  - destruct (depth =? max_depth); [by apply Hupd|].
    assert (Hloop : ∀ t t',
              (∀ p, count_at t' p = count_at t p + delta p) →
              ∀ p, count_at (walk_items t' path items depth max_depth K L A) p
                   = count_at (walk_items t path items depth max_depth K L A) p
                     + delta p).
    { induction IH as [| [k v] items Hv _ IHitems]; intros t t' Ht;
        cbn [walk_items]; [done|].
      cbn [snd] in Hv. by apply IHitems, Hv. }
    by apply Hloop, Hupd.
Qed.

Lemma walk_record_counts_shift (delta : string → Z) record :
  ∀ s s' max_depth K L A,
    (∀ p, count_at s' p = count_at s p + delta p) →
    ∀ p, count_at (walk_record s' record max_depth K L A) p
         = count_at (walk_record s record max_depth K L A) p + delta p.
Proof.
  induction record as [| [k v] record IH]; intros s s' max_depth K L A Hs;
    cbn [walk_record]; [done|].
  by apply IH, walk_value_counts_shift.
Qed.

(** X19. What a record adds to the counts does not depend on the store
    it is added to: the count of every path after the walk of a record is
    its count before plus the count that the record alone gives it. So
    the counts after two records are the same in either order. *)
Theorem walk_record_counts_additive stats record1 record2 max_depth K L A p :
  count_at (walk_record stats record1 max_depth K L A) p
  = count_at stats p + count_at (walk_record ∅ record1 max_depth K L A) p
  ∧ count_at
      (walk_record (walk_record stats record1 max_depth K L A) record2
         max_depth K L A) p
    = count_at
        (walk_record (walk_record stats record2 max_depth K L A) record1
           max_depth K L A) p.
Proof.
  assert (Hadd : ∀ s record q,
            count_at (walk_record s record max_depth K L A) q
            = count_at s q + count_at (walk_record ∅ record max_depth K L A) q).
  { intros s record q.
    rewrite (walk_record_counts_shift (count_at s) record ∅ s); [lia|].
    intros r. unfold count_at at 2, stats_at. rewrite lookup_empty. simpl. lia. }
  split; [apply Hadd|].
  rewrite (Hadd (walk_record stats record1 max_depth K L A)), (Hadd stats record1).
  rewrite (Hadd (walk_record stats record2 max_depth K L A)), (Hadd stats record2).
  lia.
Qed.

(** ** Paths that coincide *)

Lemma count_at_walk_value_grows stats path value depth max_depth K L A :
  depth ≤ max_depth →
  count_at stats path + 1
  ≤ count_at (walk_value stats path value depth max_depth K L A) path.
Proof.
  intros Hd. rewrite walk_value_within by done.
  rewrite <- (count_at_update stats path value K L).
  apply count_at_walk_children_mono.
Qed.

(** X20. A path does not tell a nested field from a top-level field
    with a dotted name, nor an array element from a top-level field whose
    name ends in ["[]"]: with [max_depth >= 1] the field [b] of the
    top-level object [a] and the top-level field [a.b] are both observed
    under the path [a.b], and with [max_array_items >= 1] as well the first
    element of the top-level array [a] and the top-level field [a[]] are
    both observed under [a[]]. *)
Theorem paths_coincide stats a b v1 v2 max_depth K L A :
  a ≠ "" → 1 ≤ max_depth →
  count_at stats (a +:+ "." +:+ b) + 2
  ≤ count_at
      (walk_record stats [(a, JObject [(b, v1)]); (a +:+ "." +:+ b, v2)]
         max_depth K L A)
      (a +:+ "." +:+ b)
  ∧ (1 ≤ A →
     count_at stats (a +:+ "[]") + 2
     ≤ count_at
         (walk_record stats [(a, JArray [v1]); (a +:+ "[]", v2)]
            max_depth K L A)
         (a +:+ "[]")).
Proof.
  intros Ha Hd. split.
  - cbn [walk_record].
    set (s1 := walk_value stats a (JObject [(b, v1)]) 0 max_depth K L A).
    pose proof (count_at_walk_value_grows s1 (a +:+ "." +:+ b) v2 0 max_depth
                  K L A ltac:(lia)) as Hsecond.
    assert (Hfirst : count_at stats (a +:+ "." +:+ b) + 1
                     ≤ count_at s1 (a +:+ "." +:+ b)).
    { subst s1. rewrite walk_value_within by lia. cbn [walk_children].
      destruct (Z.eqb_spec 0 max_depth); [lia|].
      cbn [walk_items].
      replace (object_child_path a b) with (a +:+ "." +:+ b)
        by (unfold object_child_path; by destruct a).
      pose proof (count_at_walk_value_grows
                    (update_field_stats stats a (JObject [(b, v1)]) K L)
                    (a +:+ "." +:+ b) v1 (0 + 1) max_depth K L A ltac:(lia)).
      pose proof (count_at_update_mono stats a (JObject [(b, v1)]) K L
                    (a +:+ "." +:+ b)).
      lia. }
    lia.
  - intros HA. cbn [walk_record].
    set (s1 := walk_value stats a (JArray [v1]) 0 max_depth K L A).
    pose proof (count_at_walk_value_grows s1 (a +:+ "[]") v2 0 max_depth
                  K L A ltac:(lia)) as Hsecond.
    assert (Hfirst : count_at stats (a +:+ "[]") + 1
                     ≤ count_at s1 (a +:+ "[]")).
    { subst s1. rewrite walk_value_within by lia. cbn [walk_children].
      destruct (Z.eqb_spec 0 max_depth); [lia|].
      cbn [walk_elems]. destruct (Z.geb_spec 0 A); [lia|].
      rewrite array_child_path_app.
      pose proof (count_at_walk_value_grows
                    (update_field_stats stats a (JArray [v1]) K L)
                    (a +:+ "[]") v1 (0 + 1) max_depth K L A ltac:(lia)).
      pose proof (count_at_update_mono stats a (JArray [v1]) K L (a +:+ "[]")).
      lia. }
    lia.
Qed.

Lemma paths_coincide_witness :
  count_at ∅ "a.b" + 2
  ≤ count_at
      (walk_record ∅ [("a", JObject [("b", JNull)]); ("a.b", JNull)] 3 5 200 5)
      "a.b".
Proof.
  apply (paths_coincide ∅ "a" "b" JNull JNull 3 5 200 5); [done | lia].
Defined.

(** ** The size of a string example *)

Lemma len_app (a b : string) : len (a +:+ b) = len a + len b.
Proof. unfold len. rewrite string_length_app. lia. Qed.

(** X21. With [max_string_len >= 0] the summary of a string is a string
    of at most [max_string_len] characters plus the marker: a string
    within the bound keeps its length, a longer one becomes exactly
    [max_string_len] characters followed by the marker. *)
Theorem summarize_value_string_size s max_string_len :
  0 ≤ max_string_len →
  ∃ summary,
    summarize_value (JString s) max_string_len = JString summary
    ∧ (len s ≤ max_string_len → len summary = len s)
    ∧ (max_string_len < len s →
       len summary = max_string_len + len (truncation_marker (len s)))
    ∧ len summary ≤ max_string_len + len (truncation_marker (len s)).
Proof.
  intros HL. simpl.
  assert (Hmarker : 0 ≤ len (truncation_marker (len s))) by (unfold len; lia).
  destruct (Z.leb_spec (len s) max_string_len) as [Hle | Hlt].
  - exists s. split; [done|]. split; [done|]. split; lia.
  - eexists. split; [done|].
    destruct (slice_to_nonneg s max_string_len) as [Hlen _]; [lia|].
    rewrite len_app, Hlen. split; [lia|]. split; [done | lia].
Qed.

Lemma summarize_value_string_size_witness :
  ∃ summary,
    summarize_value (JString "hello world") 4 = JString summary
    ∧ len summary = 4 + len (truncation_marker 11).
Proof.
  destruct (summarize_value_string_size "hello world" 4) as
    (summary & Hsum & _ & Hlen & _); [lia|].
  exists summary. split; [exact Hsum|]. apply Hlen. by vm_compute.
Defined.
